(** * Code objects of the SML/NJ LLVM code generator

    A shallow embedding of [runtime/c-libs/codegen/include/code-object.hxx]:
    the abstract class [CodeObject] that mediates between the object files
    produced by LLVM and the in-memory code objects of the SML/NJ heap.

    The header defines [CodeObject::size], the struct [CodeObject::Section]
    with its two constructors and accessors, [_includeSect] and
    [_relocationSect]; these are embedded from the C++ text.  It only
    declares [create], [getCode], [dump], [_computeSize], [_dumpRelocs] and
    the three pure virtual hooks; their bodies are modelled from the
    specification and marked as such. *)

From Stdlib Require Import ZArith List String Strings.Byte Bool Lia.
From stdpp Require Import base list.
Import ListNotations.
Local Open Scope Z_scope.

(** ** The Object Reader ([llvm::object]) *)

(** [llvm::Expected<T>]: a value or an error. *)
Inductive Expected (A : Type) : Type :=
  | Success (a : A)
  | Failure (msg : string).
Arguments Success {A} a.
Arguments Failure {A} msg.

(** [SectionRef] is a handle on one entry of the section table of the object
    file that owns it; [section_iterator] walks the same table and
    [section_end()] is the position one past its last entry. *)
Definition SectionRef : Type := nat.
Definition section_iterator : Type := nat.

(** [*it] *)
Definition deref (it : section_iterator) : SectionRef := it.
(** the iterator that references a section *)
Definition iter_of (s : SectionRef) : section_iterator := s.

(** [llvm::object::RelocationRef]: where to patch ([getOffset]), the
    target-specific type code ([getType]), and the referenced symbol or
    section: the section it lies in, its position inside that section, and
    the addend of the record. *)
Record RelocationRef : Type := mkReloc {
  rel_offset : Z;
  rel_type : Z;
  rel_section : SectionRef;
  rel_value : Z;
  rel_addend : Z
}.

(** What the reader reports for one section. *)
Record SectionHeader : Type := mkHeader {
  sh_name : Expected string;
  sh_isText : bool;
  sh_isData : bool;
  sh_address : Z;
  sh_size : Z;
  sh_contents : Expected (list byte);
  sh_relocations : list RelocationRef;
  sh_relocated : Expected section_iterator
}.

(** [llvm::object::ObjectFile]: the section table in file order. *)
Record ObjectFile : Type := mkObject {
  obj_sections : list SectionHeader
}.

(** [iterator_range<relocation_iterator>]: the relocation table of one
    section; the range remembers which section it walks. *)
Record relocation_range : Type := mkRange {
  rr_section : SectionRef;
  rr_entries : list RelocationRef
}.

(** A handle that references no entry of the table (LLVM leaves its use
    undefined) reads as a section that is neither text nor data, is empty and
    has no contents. *)
Definition no_header : SectionHeader :=
  {| sh_name := Failure "no such section";
     sh_isText := false;
     sh_isData := false;
     sh_address := 0;
     sh_size := 0;
     sh_contents := Failure "no such section";
     sh_relocations := [];
     sh_relocated := Failure "no such section" |}.

Definition header (obj : ObjectFile) (s : SectionRef) : SectionHeader :=
  default no_header (obj_sections obj !! s).

Module SectionRef_.
Definition getName (obj : ObjectFile) (s : SectionRef) := sh_name (header obj s).
Definition isText (obj : ObjectFile) (s : SectionRef) := sh_isText (header obj s).
Definition isData (obj : ObjectFile) (s : SectionRef) := sh_isData (header obj s).
Definition getAddress (obj : ObjectFile) (s : SectionRef) := sh_address (header obj s).
Definition getIndex (obj : ObjectFile) (s : SectionRef) : Z := Z.of_nat s.
Definition getSize (obj : ObjectFile) (s : SectionRef) := sh_size (header obj s).
Definition getContents (obj : ObjectFile) (s : SectionRef) := sh_contents (header obj s).
Definition relocations (obj : ObjectFile) (s : SectionRef) : relocation_range :=
  {| rr_section := s; rr_entries := sh_relocations (header obj s) |}.
Definition getRelocatedSection (obj : ObjectFile) (s : SectionRef) :=
  sh_relocated (header obj s).
End SectionRef_.

(** [obj->sections()] and [obj->section_end()] *)
Definition all_sections (obj : ObjectFile) : list SectionRef :=
  seq 0 (length (obj_sections obj)).
Definition section_end (obj : ObjectFile) : section_iterator :=
  length (obj_sections obj).

(** ** [struct CodeObject::Section] *)

(** The name [Section] is a command of Rocq; the struct is [SectionInfo] here.
    The one-argument constructor leaves [reloc] default-constructed, a handle
    with no owning object: that is [None] (the FIXME of the header asks for
    [std::optional<SectionRef>]). *)
Record SectionInfo : Type := mkSection {
  sect : SectionRef;
  separateRelocSec : bool;
  reloc : option SectionRef
}.

(** [Section (SectionRef &s) : sect(s), separateRelocSec(false)] *)
Definition Section1 (s : SectionRef) : SectionInfo :=
  {| sect := s; separateRelocSec := false; reloc := None |}.

(** [Section (SectionRef &s, SectionRef &r) : sect(s), separateRelocSec(true), reloc(r)] *)
Definition Section2 (s r : SectionRef) : SectionInfo :=
  {| sect := s; separateRelocSec := true; reloc := Some r |}.

(** The members of the struct, for the record of which ones a method reads. *)
Inductive Field : Type := F_sect | F_separateRelocSec | F_reloc.

#[global] Instance Field_eq_dec : EqDecision Field.
Proof. solve_decision. Defined.

(** A const method of [Section]: it reads members of [this] and returns a
    value; the second component lists the members it read, in order. *)
Definition Reads (A : Type) : Type := SectionInfo -> A * list Field.

Definition rd_ret {A} (a : A) : Reads A := fun _ => (a, []).
Definition rd_bind {A B} (m : Reads A) (k : A -> Reads B) : Reads B :=
  fun this => let (a, l1) := m this in
              let (b, l2) := k a this in (b, l1 ++ l2).
Definition this_sect : Reads SectionRef := fun this => (sect this, [F_sect]).
Definition this_separateRelocSec : Reads bool :=
  fun this => (separateRelocSec this, [F_separateRelocSec]).
Definition this_reloc : Reads (option SectionRef) :=
  fun this => (reloc this, [F_reloc]).

Declare Scope reads_scope.
Delimit Scope reads_scope with reads.
Notation "x <- m ;; k" := (rd_bind m (fun x => k))
  (at level 100, m at next level, right associativity) : reads_scope.

Module Section_.
Section Methods.
Variable obj : ObjectFile.
Local Open Scope reads_scope.

Definition getName : Reads (Expected string) :=
  s <- this_sect ;; rd_ret (SectionRef_.getName obj s).
Definition getAddress : Reads Z :=
  s <- this_sect ;; rd_ret (SectionRef_.getAddress obj s).
Definition getIndex : Reads Z :=
  s <- this_sect ;; rd_ret (SectionRef_.getIndex obj s).
Definition getSize : Reads Z :=
  s <- this_sect ;; rd_ret (SectionRef_.getSize obj s).
Definition getContents : Reads (Expected (list byte)) :=
  s <- this_sect ;; rd_ret (SectionRef_.getContents obj s).

(** [if (this->separateRelocSec) return this->reloc.relocations ();
    else return this->sect.relocations ();]
    The result is [None] when [relocations] is called on a handle that
    was never set, which C++ leaves undefined. *)
Definition relocations : Reads (option relocation_range) :=
  b <- this_separateRelocSec ;;
  if b then
    r <- this_reloc ;; rd_ret (option_map (SectionRef_.relocations obj) r)
  else
    s <- this_sect ;; rd_ret (Some (SectionRef_.relocations obj s)).

Definition getObject : Reads ObjectFile :=
  _ <- this_sect ;; rd_ret obj.
End Methods.
End Section_.

(** The interface of [Section], one name per method. *)
Inductive SectionMethod : Type :=
  | M_getName | M_getAddress | M_getIndex | M_getSize
  | M_getContents | M_relocations | M_getObject.

(** The members a method reads on a given [Section]. *)
Definition reads_of (obj : ObjectFile) (m : SectionMethod) (sec : SectionInfo) : list Field :=
  match m with
  | M_getName => snd (Section_.getName obj sec)
  | M_getAddress => snd (Section_.getAddress obj sec)
  | M_getIndex => snd (Section_.getIndex obj sec)
  | M_getSize => snd (Section_.getSize obj sec)
  | M_getContents => snd (Section_.getContents obj sec)
  | M_relocations => snd (Section_.relocations obj sec)
  | M_getObject => snd (Section_.getObject obj sec)
  end.

(** Whether the call is defined (it uses no handle that was never set). *)
Definition defined_on (obj : ObjectFile) (m : SectionMethod) (sec : SectionInfo) : bool :=
  match m with
  | M_relocations => bool_decide (is_Some (fst (Section_.relocations obj sec)))
  | _ => true
  end.

(** ** Target descriptor and target hooks *)

(** Modelled from the spec: [struct target_info] is only declared in the
    header.  The target descriptor identifies the target architecture, its
    word size (in bytes) and its endianness. *)
Record target_info : Type := mkTarget {
  ti_name : string;
  ti_wordSzB : positive;
  ti_bigEndian : bool
}.

(** Modelled from the spec: how a target patches one recognised relocation
    type: whether the type is PC-relative, the width in bytes of the patched
    word, and the bits of that word the value is inserted into (all of them
    for a plain write, the immediate field of an instruction otherwise). *)
Record RelocKind : Type := mkKind {
  rk_pcrel : bool;
  rk_width : nat;
  rk_mask : Z
}.

(** The pure virtual members of [CodeObject], one instance per target:
    [_includeDataSect] and [_relocTypeToString] as declared; the body of
    [_resolveRelocs] is given further down from the table [relocKind] of the
    relocation types the target recognises. *)
Class TargetPolicy : Type := mkPolicy {
  _includeDataSect : ObjectFile -> SectionRef -> bool;
  relocKind : Z -> option RelocKind;
  _relocTypeToString : Z -> string
}.

(** ** [class CodeObject] *)

Record CodeObject : Type := mkCodeObject {
  _vptr : TargetPolicy;
  _tgt : target_info;
  _obj : ObjectFile;
  _szb : Z;
  _sects : list SectionInfo
}.

(** Calls of interest made while a method runs, oldest first. *)
Inductive Event : Type :=
  | Call_includeDataSect (s : SectionRef)
  | Call_computeSize
  | Call_getCode (code : Z)
  | Call_resolveRelocs (s : SectionRef)
  | Call_dump (bits : bool).

#[global] Instance Event_eq_dec : EqDecision Event.
Proof. solve_decision. Defined.

(** The state a non-const method runs in: the object and the calls so far. *)
Record State : Type := mkState {
  this : CodeObject;
  calls : list Event
}.

(** A method returns, or the process dies with a message. *)
Inductive Result (A : Type) : Type :=
  | OK (a : A)
  | Fatal (msg : string).
Arguments OK {A} a.
Arguments Fatal {A} msg.

Definition M (A : Type) : Type := State -> Result (A * State).

Definition ret {A} (a : A) : M A := fun st => OK (a, st).
Definition bind {A B} (m : M A) (k : A -> M B) : M B :=
  fun st => match m st with
            | OK (a, st') => k a st'
            | Fatal msg => Fatal msg
            end.
Definition die {A} (msg : string) : M A := fun _ => Fatal msg.
Definition gets {A} (f : CodeObject -> A) : M A := fun st => OK (f (this st), st).
Definition modify (f : CodeObject -> CodeObject) : M unit :=
  fun st => OK (tt, {| this := f (this st); calls := calls st |}).
Definition record (e : Event) : M unit :=
  fun st => OK (tt, {| this := this st; calls := calls st ++ [e] |}).

Declare Scope method_scope.
Delimit Scope method_scope with method.
Notation "x <- m ;; k" := (bind m (fun x => k))
  (at level 100, m at next level, right associativity) : method_scope.
Notation "m ;;; k" := (bind m (fun _ => k))
  (at level 100, right associativity) : method_scope.

(** [a || b] and [a && b]: the right operand runs only when it decides. *)
Definition orelse (a b : M bool) : M bool :=
  (x <- a ;; if x then ret true else b)%method.
Definition andalso (a b : M bool) : M bool :=
  (x <- a ;; if x then b else ret false)%method.

(** [for (auto x : xs) body(x)] *)
Fixpoint for_each {A} (xs : list A) (body : A -> M unit) : M unit :=
  match xs with
  | [] => ret tt
  | x :: rest => (body x ;;; for_each rest body)%method
  end.

Module CodeObject_.
Local Open Scope method_scope.

(** [CodeObject (target, objFile) : _tgt(target), _obj(std::move(objFile)), _szb(0)] *)
Definition ctor (vt : TargetPolicy) (target : target_info) (objFile : ObjectFile)
  : CodeObject :=
  {| _vptr := vt; _tgt := target; _obj := objFile; _szb := 0; _sects := [] |}.

(** [size_t size() const { return this->_szb; }] *)
Definition size (this : CodeObject) : Z := _szb this.

(** The virtual call [this->_includeDataSect(sect)]. *)
Definition call_includeDataSect (sect : SectionRef) : M bool :=
  record (Call_includeDataSect sect) ;;;
  gets (fun this => @_includeDataSect (_vptr this) (_obj this) sect).

(** [return sect.isText() || (sect.isData() && this->_includeDataSect(sect));] *)
Definition _includeSect (sect : SectionRef) : M bool :=
  obj <- gets _obj ;;
  orelse (ret (SectionRef_.isText obj sect))
         (andalso (ret (SectionRef_.isData obj sect))
                  (call_includeDataSect sect)).

(** [auto reloc = sect.getRelocatedSection();]  When [reloc] holds an
    iterator, that iterator differs from [this->_obj->section_end()] and
    the section it references passes [this->_includeSect], the method
    returns the iterator; else it returns [this->_obj->section_end()].
    The three tests are joined by [&&], in this order. *)
Definition _relocationSect (sect : SectionRef) : M section_iterator :=
  obj <- gets _obj ;;
  match SectionRef_.getRelocatedSection obj sect with
  | Success it =>
      ok <- andalso (ret (negb (Nat.eqb it (section_end obj))))
                    (_includeSect (deref it)) ;;
      if ok then ret it else ret (section_end obj)
  | Failure _ => ret (section_end obj)
  end.
End CodeObject_.

(** ** Bytes and memory *)

Definition byte_of_Z (z : Z) : byte :=
  default x00 (Byte.of_N (Z.to_N (z mod 256))).
Definition Z_of_byte (b : byte) : Z := Z.of_N (Byte.to_N b).

(** The memory [unsigned char *] pointers point into, by address. *)
Definition Mem : Type := Z -> byte.

Definition store (m : Mem) (a : Z) (b : byte) : Mem :=
  fun x => if Z.eqb x a then b else m x.

(** [memcpy (a, bs.data(), bs.size())] *)
Fixpoint memcpy (m : Mem) (a : Z) (bs : list byte) : Mem :=
  match bs with
  | [] => m
  | b :: rest => memcpy (store m a b) (a + 1) rest
  end.

(** [size_t] arithmetic *)
Definition wrap64 (z : Z) : Z := z mod 2 ^ 64.

(** ** Layout and size *)

(** Modelled from the spec: the alignment between consecutive sections is
    not visible in the header; the spec adopts alignment to the word size of
    the target.  [roundUp n w] is the least multiple of [w] that is at least
    [n]. *)
Definition roundUp (n : Z) (w : positive) : Z :=
  (n + Z.pos w - 1) / Z.pos w * Z.pos w.

(** Modelled from the spec: the offset assigned to each included section.
    [struct Section] has no member for it, so it is the running total of
    [_computeSize] replayed over [_sects]: a section starts at the total so
    far rounded up to the word size, and the total then is its end. *)
Fixpoint assign (obj : ObjectFile) (w : positive) (total : Z)
    (sects : list SectionInfo) : list (SectionInfo * Z) :=
  match sects with
  | [] => []
  | sec :: rest =>
      let start := roundUp total w in
      (sec, start) :: assign obj w (wrap64 (start + fst (Section_.getSize obj sec))) rest
  end.

Definition layout (this : CodeObject) : list (SectionInfo * Z) :=
  assign (_obj this) (ti_wordSzB (_tgt this)) 0 (_sects this).

(** The offset assigned to the included section [s], if it is included. *)
Definition assigned (lay : list (SectionInfo * Z)) (s : SectionRef) : option Z :=
  snd <$> List.find (fun p => Nat.eqb (sect (fst p)) s) lay.

(** ** Patching *)

(** Byte [j], in memory order, of the [width]-byte word [w]. *)
Definition byte_at (bigEndian : bool) (width : nat) (w : Z) (j : nat) : Z :=
  let k := if bigEndian then (width - 1 - j)%nat else j in
  Z.land (Z.shiftr w (8 * Z.of_nat k)) 255.

(** The bits of [v] selected by [mask] replace those of [old]. *)
Definition insert_bits (old v mask : Z) : Z :=
  Z.lor (Z.land old (Z.lnot mask)) (Z.land v mask).

Definition patch_byte (bigEndian : bool) (k : RelocKind) (v : Z) (P : Z)
    (m : Mem) (j : nat) : Mem :=
  let a := P + Z.of_nat j in
  store m a (byte_of_Z (insert_bits (Z_of_byte (m a))
                                     (byte_at bigEndian (rk_width k) v j)
                                     (byte_at bigEndian (rk_width k) (rk_mask k) j))).

(** Modelled from the spec: the value [v] is written into the [rk_width]-byte
    word at [P] in the byte order of the target; a narrow field keeps the
    bits of the word outside the mask. *)
Definition patch (bigEndian : bool) (k : RelocKind) (v : Z) (P : Z) (m : Mem) : Mem :=
  fold_left (patch_byte bigEndian k v P) (seq 0 (rk_width k)) m.

Definition unknown_reloc (name : string) : string :=
  ("unknown relocation type " ++ name)%string.

(** What [dump] writes to the debug stream. *)
Inductive DumpLine : Type :=
  | D_section (name : Expected string) (address size : Z)
  | D_bytes (contents : Expected (list byte))
  | D_reloc (offset : Z) (type_name : string).

Module CodeObject_impl.
Import CodeObject_.
Local Open Scope method_scope.

(** Modelled from the spec: the section of the object file that holds the
    relocation records of the included section [sect], if there is one.
    The Object Reader offers "a way to find the section that a separate
    relocation-info section applies to", and [_relocationSect] puts that
    question to a section; so the candidates are tried in file order until
    [_relocationSect] answers [sect] for one of them. *)
Fixpoint locateRelocs (sect : SectionRef) (cands : list SectionRef)
    : M (option SectionRef) :=
  match cands with
  | [] => ret None
  | r :: rest =>
      it <- _relocationSect r ;;
      obj <- gets _obj ;;
      if negb (Nat.eqb it (section_end obj)) && Nat.eqb it (iter_of sect)
      then ret (Some r)
      else locateRelocs sect rest
  end.

(** [this->_sects.push_back (sec)] *)
Definition push_back (sec : SectionInfo) : M unit :=
  modify (fun this =>
    {| _vptr := _vptr this; _tgt := _tgt this; _obj := _obj this;
       _szb := _szb this; _sects := _sects this ++ [sec] |}).

(** [this->_szb = n] *)
Definition set_szb (n : Z) : M unit :=
  modify (fun this =>
    {| _vptr := _vptr this; _tgt := _tgt this; _obj := _obj this;
       _szb := n; _sects := _sects this |}).

(** Modelled from the spec: the step of [_computeSize] for one section of
    the object file.  A section that passes [_includeSect] is appended to
    [_sects], paired with the section that holds its relocation records
    when there is one, and the total grows to the end of that section,
    which starts at the total so far rounded up to the word size. *)
Definition consider (sect : SectionRef) : M unit :=
  inc <- _includeSect sect ;;
  if inc then
    obj <- gets _obj ;;
    r <- locateRelocs sect (all_sections obj) ;;
    push_back (match r with
               | Some rs => Section2 sect rs
               | None => Section1 sect
               end) ;;;
    tgt <- gets _tgt ;;
    szb <- gets _szb ;;
    set_szb (wrap64 (roundUp szb (ti_wordSzB tgt) + SectionRef_.getSize obj sect))
  else ret tt.

(** Modelled from the spec: [_computeSize] is declared in the header and
    defined elsewhere.  It walks every section the Object Reader reports,
    in file order. *)
Definition _computeSize : M unit :=
  record Call_computeSize ;;;
  obj <- gets _obj ;;
  for_each (all_sections obj) consider.

(** Modelled from the spec: one relocation record of the section [sec] whose
    bytes were copied to [code].  The type is looked up first; a type the
    target does not recognise is fatal, and the message carries its name.
    The patch value is the address of the referenced symbol or section in
    the destination plus the addend, minus the address of the patch
    location for a PC-relative type.  A record that refers to a section
    outside the code object is malformed input, which is fatal too. *)
Definition resolve_one (sec : SectionInfo) (code : Z) (r : RelocationRef) (m : Mem)
    : M Mem :=
  vt <- gets _vptr ;;
  match @relocKind vt (rel_type r) with
  | None => die (unknown_reloc (@_relocTypeToString vt (rel_type r)))
  | Some k =>
      lay <- gets layout ;;
      match assigned lay (sect sec), assigned lay (rel_section r) with
      | Some here, Some there =>
          tgt <- gets _tgt ;;
          let P := code + rel_offset r in
          let T := code - here + there + rel_value r in
          let v := T + rel_addend r - (if rk_pcrel k then P else 0) in
          ret (patch (ti_bigEndian tgt) k v P m)
      | _, _ => die "relocation against a section outside the code object"
      end
  end.

Fixpoint resolve_all (sec : SectionInfo) (code : Z) (rs : list RelocationRef) (m : Mem)
    : M Mem :=
  match rs with
  | [] => ret m
  | r :: rest => m' <- resolve_one sec code r m ;; resolve_all sec code rest m'
  end.

(** Modelled from the spec: [_resolveRelocs (sect, code)] is pure virtual;
    the spec gives every target the same body over its own table of
    relocation types: each record of [sect.relocations()] is resolved in
    turn.  The memory is passed in and out. *)
Definition _resolveRelocs (sec : SectionInfo) (code : Z) (m : Mem) : M Mem :=
  record (Call_resolveRelocs (sect sec)) ;;;
  obj <- gets _obj ;;
  match fst (Section_.relocations obj sec) with
  | Some range => resolve_all sec code (rr_entries range) m
  | None => die "relocations of a section handle that was never set"
  end.

Fixpoint copy_all (code : Z) (lay : list (SectionInfo * Z)) (m : Mem) : M Mem :=
  match lay with
  | [] => ret m
  | (sec, off) :: rest =>
      obj <- gets _obj ;;
      match fst (Section_.getContents obj sec) with
      | Success bytes =>
          m' <- _resolveRelocs sec (code + off) (memcpy m (code + off) bytes) ;;
          copy_all code rest m'
      | Failure _ => die "unable to get the contents of a section"
      end
  end.

(** Modelled from the spec: [getCode (code)] is declared in the header and
    defined elsewhere.  For each included section, in the order of
    [_sects], it copies the raw bytes of the section to the destination at
    the offset assigned to the section and then has [_resolveRelocs] patch
    the bytes just copied. *)
Definition getCode (code : Z) (m : Mem) : M Mem :=
  record (Call_getCode code) ;;;
  lay <- gets layout ;;
  copy_all code lay m.

(** Modelled from the spec: [_dumpRelocs (sect)] lists the relocation
    records of a section with the names of their types. *)
Definition _dumpRelocs (s : SectionRef) : M (list DumpLine) :=
  vt <- gets _vptr ;;
  obj <- gets _obj ;;
  ret (map (fun r => D_reloc (rel_offset r) (@_relocTypeToString vt (rel_type r)))
           (rr_entries (SectionRef_.relocations obj s))).

Fixpoint dump_all (bits : bool) (sects : list SectionInfo) : M (list DumpLine) :=
  match sects with
  | [] => ret []
  | sec :: rest =>
      obj <- gets _obj ;;
      let meta := D_section (fst (Section_.getName obj sec))
                            (fst (Section_.getAddress obj sec))
                            (fst (Section_.getSize obj sec)) in
      more <- dump_all bits rest ;;
      if bits then
        relocs <- _dumpRelocs
                    (if separateRelocSec sec then default (sect sec) (reloc sec) else sect sec) ;;
        ret (meta :: D_bytes (fst (Section_.getContents obj sec)) :: relocs ++ more)
      else ret (meta :: more)
  end.

(** Modelled from the spec: [dump (bits)] writes the metadata of every
    included section and, when [bits] is set, its raw bytes and its
    relocation records; it never fails.  The lines written are returned. *)
Definition dump (bits : bool) : M (list DumpLine) :=
  record (Call_dump bits) ;;;
  sects <- gets _sects ;;
  dump_all bits sects.
End CodeObject_impl.

(** ** The factory *)

(** Modelled from the spec: [class code_buffer] is only named in the header:
    the object file the backend emitted, as bytes, with the descriptor of the
    target it was compiled for. *)
Record code_buffer : Type := mkBuffer {
  cb_target : target_info;
  cb_bytes : list byte
}.

Section Factory.
(** The Object Reader, which recognises an object format or does not, and
    the closed set of supported architectures with their hooks. *)
Variable createObjectFile : list byte -> option ObjectFile.
Variable policyFor : target_info -> option TargetPolicy.

(** Modelled from the spec: [create (codeBuf)] is declared in the header
    and defined elsewhere.  It selects the hooks of the target, parses the
    buffer, constructs the object and computes its layout and size at
    once; it yields no object when the architecture or the object format
    is not recognised. *)
Definition create (codeBuf : code_buffer) : Result (option State) :=
  match policyFor (cb_target codeBuf), createObjectFile (cb_bytes codeBuf) with
  | Some vt, Some objFile =>
      match CodeObject_impl._computeSize
              {| this := CodeObject_.ctor vt (cb_target codeBuf) objFile;
                 calls := [] |} with
      | OK (_, st) => OK (Some st)
      | Fatal msg => Fatal msg
      end
  | _, _ => OK None
  end.
End Factory.

(** ** The inclusion test and the selection, stated on the object file *)

(** The inclusion rule in the words of the specification: a section is
    included if it is a text section, or it is a data section and the
    data-inclusion policy of the target approves it. *)
Definition included_by_spec (vt : TargetPolicy) (obj : ObjectFile) (s : SectionRef) : bool :=
  SectionRef_.isText obj s
  || (SectionRef_.isData obj s && @_includeDataSect vt obj s).

(** The calls of [_includeDataSect] one run of [_includeSect] makes. *)
Definition consulted (obj : ObjectFile) (s : SectionRef) : list Event :=
  if negb (SectionRef_.isText obj s) && SectionRef_.isData obj s
  then [Call_includeDataSect s] else [].

(** The answer of [_relocationSect] in terms of the object file: the section
    the records of [s] apply to, when the reader knows one and it is
    included. *)
Definition relocated_included (vt : TargetPolicy) (obj : ObjectFile) (s : SectionRef)
    : section_iterator :=
  match SectionRef_.getRelocatedSection obj s with
  | Success it =>
      if negb (Nat.eqb it (section_end obj)) && included_by_spec vt obj (deref it)
      then it else section_end obj
  | Failure _ => section_end obj
  end.

(** The first section, in file order, that holds the records of [s]. *)
Definition holder_of (vt : TargetPolicy) (obj : ObjectFile) (s : SectionRef)
    (cands : list SectionRef) : option SectionRef :=
  List.find (fun r => negb (Nat.eqb (relocated_included vt obj r) (section_end obj))
                      && Nat.eqb (relocated_included vt obj r) (iter_of s)) cands.

(** The [Section] built for an included section. *)
Definition paired (vt : TargetPolicy) (obj : ObjectFile) (s : SectionRef) : SectionInfo :=
  match holder_of vt obj s (all_sections obj) with
  | Some r => Section2 s r
  | None => Section1 s
  end.

(** The sum of sizes in the words of the specification: taken in order, each
    section starting at the sum so far rounded up to the word size, in
    [size_t] arithmetic. *)
Definition padded_sum (w : positive) (sizes : list Z) : Z :=
  fold_left (fun total sz => wrap64 (roundUp total w + sz)) sizes 0.

(** The same sum over the integers. *)
Definition padded_sum_Z (w : positive) (sizes : list Z) : Z :=
  fold_left (fun total sz => roundUp total w + sz) sizes 0.

(** ** The public interface once an object exists *)

Inductive Request : Type :=
  | Req_size
  | Req_getCode (code : Z) (m : Mem)
  | Req_dump (bits : bool).

Inductive Reply : Type :=
  | Rep_size (n : Z)
  | Rep_code (m : Mem)
  | Rep_dump (lines : list DumpLine).

Definition serve (q : Request) : M Reply :=
  match q with
  | Req_size => (n <- gets CodeObject_.size ;; ret (Rep_size n))%method
  | Req_getCode code m => (m' <- CodeObject_impl.getCode code m ;; ret (Rep_code m'))%method
  | Req_dump bits => (l <- CodeObject_impl.dump bits ;; ret (Rep_dump l))%method
  end.

Fixpoint serve_all (qs : list Request) : M (list Reply) :=
  match qs with
  | [] => ret []
  | q :: rest =>
      (r <- serve q ;; rs <- serve_all rest ;; ret (r :: rs))%method
  end.

(** ** Sample targets and object files *)

Module Samples.
Local Open Scope string_scope.

(** A 64-bit little-endian target that keeps the data sections named
    [.rodata] and recognises two relocation types: 1, an absolute 8-byte
    address, and 2, a PC-relative 4-byte displacement. *)
#[local] Instance amd64 : TargetPolicy :=
  {| _includeDataSect := fun obj s =>
       match SectionRef_.getName obj s with
       | Success n => String.eqb n ".rodata"
       | Failure _ => false
       end;
     relocKind := fun ty =>
       if (ty =? 1)%Z then Some {| rk_pcrel := false; rk_width := 8; rk_mask := 2 ^ 64 - 1 |}
       else if (ty =? 2)%Z then Some {| rk_pcrel := true; rk_width := 4; rk_mask := 2 ^ 32 - 1 |}
       else None;
     _relocTypeToString := fun ty =>
       if (ty =? 1)%Z then "R_X86_64_64"
       else if (ty =? 2)%Z then "R_X86_64_PC32"
       else "Unknown" |}.

Definition x86_64 : target_info :=
  {| ti_name := "x86_64"; ti_wordSzB := 8; ti_bigEndian := false |}.

Definition bytes (l : list Z) : list byte := map byte_of_Z l.

Definition text_header (contents : list byte) (relocs : list RelocationRef) : SectionHeader :=
  {| sh_name := Success ".text"; sh_isText := true; sh_isData := false;
     sh_address := 0; sh_size := Z.of_nat (length contents);
     sh_contents := Success contents; sh_relocations := relocs;
     sh_relocated := Failure "not a relocation section" |}.

Definition data_header (name : string) (contents : list byte) : SectionHeader :=
  {| sh_name := Success name; sh_isText := false; sh_isData := true;
     sh_address := 0; sh_size := Z.of_nat (length contents);
     sh_contents := Success contents; sh_relocations := [];
     sh_relocated := Failure "not a relocation section" |}.

(** A section that holds the relocation records of section [target]. *)
Definition rela_header (target : section_iterator) (relocs : list RelocationRef)
    : SectionHeader :=
  {| sh_name := Success ".rela.text"; sh_isText := false; sh_isData := false;
     sh_address := 0; sh_size := 0;
     sh_contents := Success []; sh_relocations := relocs;
     sh_relocated := Success target |}.

(** [nop; nop; movabs $0, %rax; jmp *%rax; nop; nop]: the 8-byte operand of
    [movabs] is at offset 4. *)
Definition text16 : list byte :=
  bytes ([144; 144; 72; 184] ++ repeat 0 8 ++ [255; 224; 144; 144]).
Definition data8 : list byte := bytes [222; 173; 190; 239; 202; 254; 186; 190].

(** Scenario A: 16 bytes of text with one absolute 8-byte relocation at
    offset 4 against the 8-byte read-only data section that follows. *)
Definition objA : ObjectFile :=
  {| obj_sections :=
       [ text_header text16
           [ {| rel_offset := 4; rel_type := 1; rel_section := 1%nat;
                rel_value := 0; rel_addend := 0 |} ];
         data_header ".rodata" data8 ] |}.

(** Scenario B: only a debug-info data section. *)
Definition objB : ObjectFile :=
  {| obj_sections := [ data_header ".debug_info" data8 ] |}.

(** Scenario C: the only relocation carries a type code no target knows. *)
Definition objC : ObjectFile :=
  {| obj_sections :=
       [ text_header text16
           [ {| rel_offset := 4; rel_type := 99; rel_section := 0%nat;
                rel_value := 0; rel_addend := 0 |} ] ] |}.

(** Text whose relocation records are kept in a section of their own. *)
Definition objR : ObjectFile :=
  {| obj_sections :=
       [ text_header text16 [];
         rela_header 0%nat
           [ {| rel_offset := 8; rel_type := 2; rel_section := 0%nat;
                rel_value := 0; rel_addend := 0 |} ] ] |}.

(** Three bytes of text and one byte of data: the data section starts at
    offset 8 and the bytes 3 to 7 of the code object belong to no section. *)
Definition objP : ObjectFile :=
  {| obj_sections :=
       [ text_header (bytes [15; 11; 195]) [];
         data_header ".rodata" (bytes [9]) ] |}.


Definition fresh (obj : ObjectFile) : State :=
  {| this := CodeObject_.ctor amd64 x86_64 obj; calls := [] |}.

(** The object after construction and [_computeSize]. *)
Definition built (obj : ObjectFile) : State :=
  match CodeObject_impl._computeSize (fresh obj) with
  | OK (_, st) => st
  | Fatal _ => fresh obj
  end.

Definition zeros : Mem := fun _ => x00.
Definition ones : Mem := fun _ => xff.

(** An Object Reader that knows one format, whose files start with the
    bytes [7f 45 4c 46], and finds Scenario A in every such file; and the
    set of architectures with [x86_64] as its only member. *)
Definition reader (buf : list byte) : option ObjectFile :=
  match buf with
  | x7f :: x45 :: x4c :: x46 :: _ => Some objA
  | _ => None
  end.
Definition targets (t : target_info) : option TargetPolicy :=
  if String.eqb (ti_name t) "x86_64" then Some amd64 else None.

Definition good_buffer : code_buffer :=
  {| cb_target := x86_64; cb_bytes := [x7f; x45; x4c; x46; x02] |}.
Definition bad_format : code_buffer :=
  {| cb_target := x86_64; cb_bytes := [x00; x01] |}.
Definition bad_arch : code_buffer :=
  {| cb_target := {| ti_name := "vax"; ti_wordSzB := 4; ti_bigEndian := false |};
     cb_bytes := [x7f; x45; x4c; x46; x02] |}.
End Samples.

(** ** States and calls *)

(** An extension of the state by further calls, the object untouched. *)
Definition after (st : State) (new : list Event) : State :=
  {| this := this st; calls := calls st ++ new |}.

(** The calls one run of [_relocationSect] makes. *)
Definition relocationSect_calls (obj : ObjectFile) (s : SectionRef) : list Event :=
  match SectionRef_.getRelocatedSection obj s with
  | Success it =>
      if negb (Nat.eqb it (section_end obj)) then consulted obj (deref it) else []
  | Failure _ => []
  end.

(** A call of the data-inclusion hook. *)
Definition is_consult (e : Event) : bool :=
  match e with
  | Call_includeDataSect _ => true
  | _ => false
  end.

(** The object after [consider] looked at the section [x]. *)
Definition grow1 (co : CodeObject) (x : SectionRef) : CodeObject :=
  if included_by_spec (_vptr co) (_obj co) x then
    {| _vptr := _vptr co; _tgt := _tgt co; _obj := _obj co;
       _szb := wrap64 (roundUp (_szb co) (ti_wordSzB (_tgt co))
                       + SectionRef_.getSize (_obj co) x);
       _sects := _sects co ++ [paired (_vptr co) (_obj co) x] |}
  else co.

(** The object after [consider] looked at the sections [xs] in turn. *)
Definition grow (co : CodeObject) (xs : list SectionRef) : CodeObject :=
  fold_left grow1 xs co.

(** A call made while the bytes are copied and patched. *)
Definition is_resolve (e : Event) : bool :=
  match e with
  | Call_resolveRelocs _ => true
  | _ => false
  end.

(** What a caller sees of a run: the value returned, or the message. *)
Definition outcome {A} (r : Result (A * State)) : Result A :=
  match r with
  | OK (a, _) => OK a
  | Fatal msg => Fatal msg
  end.

(** Two runs of a method that end alike: with the same value and the same
    object, or with the same message. *)
Definition alike {A} (r1 r2 : Result (A * State)) : Prop :=
  match r1, r2 with
  | OK (a1, s1), OK (a2, s2) => a1 = a2 /\ this s1 = this s2
  | Fatal m1, Fatal m2 => m1 = m2
  | _, _ => False
  end.

(** A method whose run depends on the object only, not on the calls
    recorded before. *)
Definition object_only {A} (m : M A) : Prop :=
  forall st1 st2, this st1 = this st2 -> alike (m st1) (m st2).

(** A relocation record the target recognises and whose patch location and
    referenced section both lie in the code object. *)
Definition resolvable (co : CodeObject) (sec : SectionInfo) (r : RelocationRef) : bool :=
  match @relocKind (_vptr co) (rel_type r),
        assigned (layout co) (sect sec),
        assigned (layout co) (rel_section r) with
  | Some _, Some _, Some _ => true
  | _, _, _ => false
  end.

(** ** Positions of the code object *)

(** The byte a patch leaves at position [j] of the patched word. *)
Definition patched_byte (bigEndian : bool) (k : RelocKind) (v : Z) (old : byte) (j : nat)
    : byte :=
  byte_of_Z (insert_bits (Z_of_byte old)
                         (byte_at bigEndian (rk_width k) v j)
                         (byte_at bigEndian (rk_width k) (rk_mask k) j)).

(** Position [i] of the code object holds a byte copied from the contents
    of one of the sections laid out in [lay]. *)
Definition contents_at (obj : ObjectFile) (lay : list (SectionInfo * Z)) (i : Z) : Prop :=
  exists sec off bytes,
    In (sec, off) lay
    /\ SectionRef_.getContents obj (sect sec) = Success bytes
    /\ off <= i < off + Z.of_nat (length bytes).

(** Position [i] of the code object lies in the word patched by a
    relocation record whose type is not PC-relative: the patch value is an
    address in the destination. *)
Definition absolute_patch_at (co : CodeObject) (i : Z) : Prop :=
  exists sec off range r k,
    In (sec, off) (layout co)
    /\ fst (Section_.relocations (_obj co) sec) = Some range
    /\ In r (rr_entries range)
    /\ @relocKind (_vptr co) (rel_type r) = Some k
    /\ rk_pcrel k = false
    /\ off + rel_offset r <= i < off + rel_offset r + Z.of_nat (rk_width k).

(** Two destinations, at [c1] in [m1] and at [c2] in [m2], agree at position
    [i]: they hold the same byte there, or their base addresses differ and
    the position is patched with an absolute address. *)
Definition agree (co : CodeObject) (c1 c2 : Z) (m1 m2 : Mem) (i : Z) : Prop :=
  m1 (c1 + i) = m2 (c2 + i) \/ (c1 <> c2 /\ absolute_patch_at co i).

(** ** Well-formed input *)


(** [_szb] is the sum [_computeSize] forms over [_sects]. *)
Definition sized (co : CodeObject) : Prop :=
  _szb co = padded_sum (ti_wordSzB (_tgt co))
              (map (fun sec => fst (Section_.getSize (_obj co) sec)) (_sects co)).



(** The memory and state a run of [getCode] ends with (the ones it started
    with, had it died). *)
Definition run_getCode (code : Z) (m : Mem) (st : State) : Mem * State :=
  match CodeObject_impl.getCode code m st with
  | OK p => p
  | Fatal _ => (m, st)
  end.

(** ** Calls of the methods of [Section], uniformly *)

(** The value of a member of a [Section]. *)
Inductive MemberValue : Type :=
  | V_sect (s : SectionRef)
  | V_separateRelocSec (b : bool)
  | V_reloc (r : option SectionRef).

Definition member (f : Field) (sec : SectionInfo) : MemberValue :=
  match f with
  | F_sect => V_sect (sect sec)
  | F_separateRelocSec => V_separateRelocSec (separateRelocSec sec)
  | F_reloc => V_reloc (reloc sec)
  end.

(** What a method of [Section] returns. *)
Inductive MethodResult : Type :=
  | R_getName (name : Expected string)
  | R_getAddress (a : Z)
  | R_getIndex (i : Z)
  | R_getSize (n : Z)
  | R_getContents (bytes : Expected (list byte))
  | R_relocations (range : option relocation_range)
  | R_getObject (obj : ObjectFile).

Definition invoke (obj : ObjectFile) (m : SectionMethod) (sec : SectionInfo) : MethodResult :=
  match m with
  | M_getName => R_getName (fst (Section_.getName obj sec))
  | M_getAddress => R_getAddress (fst (Section_.getAddress obj sec))
  | M_getIndex => R_getIndex (fst (Section_.getIndex obj sec))
  | M_getSize => R_getSize (fst (Section_.getSize obj sec))
  | M_getContents => R_getContents (fst (Section_.getContents obj sec))
  | M_relocations => R_relocations (fst (Section_.relocations obj sec))
  | M_getObject => R_getObject (fst (Section_.getObject obj sec))
  end.

(** * Properties *)

Import CodeObject_ CodeObject_impl.

Lemma after_nil st : after st [] = st.
Proof. destruct st; unfold after; simpl; now rewrite app_nil_r. Qed.

Lemma after_after st l1 l2 : after (after st l1) l2 = after st (l1 ++ l2).
Proof. unfold after; simpl; now rewrite app_assoc. Qed.

(** ** [_includeSect] and [_relocationSect] *)

Lemma includeSect_run (st : State) (s : SectionRef) :
  _includeSect s st
  = OK (included_by_spec (_vptr (this st)) (_obj (this st)) s,
        after st (consulted (_obj (this st)) s)).
Proof.
  unfold _includeSect, included_by_spec, consulted, orelse, andalso,
    call_includeDataSect, bind, gets, ret, record.
  destruct (SectionRef_.isText _ s); simpl.
  - now rewrite after_nil.
  - destruct (SectionRef_.isData _ s); simpl; [reflexivity|].
    now rewrite after_nil.
Qed.

Lemma relocationSect_run (st : State) (s : SectionRef) :
  _relocationSect s st
  = OK (relocated_included (_vptr (this st)) (_obj (this st)) s,
        after st (relocationSect_calls (_obj (this st)) s)).
Proof.
  unfold _relocationSect, relocated_included, relocationSect_calls.
  unfold bind at 1, gets at 1.
  destruct (SectionRef_.getRelocatedSection _ s) as [it|msg]; simpl.
  - unfold andalso, bind, ret.
    destruct (negb (Nat.eqb it _)); simpl.
    + rewrite includeSect_run.
      now destruct (included_by_spec _ _ (deref it)).
    + now rewrite after_nil.
  - unfold ret. now rewrite after_nil.
Qed.

(** C2.  For every section, [_includeSect] answers true exactly when the
    section is a text section, or it is a data section and
    [_includeDataSect] approves it; the run leaves the object as it was, and
    it calls [_includeDataSect] only on a data section (and then once, on
    that section, when the section is not text). *)
Theorem includeSect_text_or_approved_data (st : State) (s : SectionRef) :
  let obj := _obj (this st) in
  exists (answer : bool) (new : list Event),
    _includeSect s st = OK (answer, after st new)
    /\ (answer = true <->
          SectionRef_.isText obj s = true
          \/ (SectionRef_.isData obj s = true
              /\ @_includeDataSect (_vptr (this st)) obj s = true))
    /\ (forall x, In (Call_includeDataSect x) new ->
          x = s /\ SectionRef_.isData obj x = true)
    /\ new = (if negb (SectionRef_.isText obj s) && SectionRef_.isData obj s
              then [Call_includeDataSect s] else []).
Proof.
  intros obj.
  exists (included_by_spec (_vptr (this st)) obj s), (consulted obj s).
  split; [apply includeSect_run|].
  split; [|split].
  - unfold included_by_spec.
    rewrite orb_true_iff, andb_true_iff. tauto.
  - unfold consulted. intros x Hx.
    destruct (SectionRef_.isText obj s); simpl in Hx; [contradiction|].
    destruct (SectionRef_.isData obj s) eqn:Hd; simpl in Hx; [|contradiction].
    destruct Hx as [Hx|[]]. inversion Hx; subst. now split.
  - reflexivity.
Qed.

(** ** [struct Section] *)

Lemma relocations_flag_set (obj : ObjectFile) (sec : SectionInfo) :
  separateRelocSec sec = true ->
  Section_.relocations obj sec
  = (option_map (SectionRef_.relocations obj) (reloc sec), [F_separateRelocSec; F_reloc]).
Proof.
  intros H. unfold Section_.relocations, rd_bind, this_separateRelocSec, this_reloc, rd_ret.
  now rewrite H.
Qed.

Lemma relocations_flag_unset (obj : ObjectFile) (sec : SectionInfo) :
  separateRelocSec sec = false ->
  Section_.relocations obj sec
  = (Some (SectionRef_.relocations obj (sect sec)), [F_separateRelocSec; F_sect]).
Proof.
  intros H. unfold Section_.relocations, rd_bind, this_separateRelocSec, this_sect, rd_ret.
  now rewrite H.
Qed.

(** C3 as stated fails: the two-argument constructor accepts the same
    section twice; the flag of the [Section] it builds is set, its reloc view
    is its primary view, and [relocations()] is the relocation range of the
    primary section. *)
Lemma relocations_view_not_distinct :
  let sec := Section2 0%nat 0%nat in
  separateRelocSec sec = true
  /\ reloc sec = Some (sect sec)
  /\ fst (Section_.relocations Samples.objA sec)
     = Some (SectionRef_.relocations Samples.objA (sect sec)).
Proof. repeat split. Qed.

(** C3, amended.  For every [Section]: if its flag is set, [relocations()]
    is the relocation range of its reloc view; if the flag is unset,
    [relocations()] is the relocation range of the primary section itself.
    For a [Section] built by the two-argument constructor the range returned
    walks a section other than the primary one exactly when the two
    arguments differ. *)
Theorem relocations_selects_view (obj : ObjectFile) :
  (forall sec, separateRelocSec sec = true ->
     fst (Section_.relocations obj sec)
     = option_map (SectionRef_.relocations obj) (reloc sec))
  /\ (forall sec, separateRelocSec sec = false ->
        fst (Section_.relocations obj sec)
        = Some (SectionRef_.relocations obj (sect sec)))
  /\ (forall s r,
        fst (Section_.relocations obj (Section2 s r))
        = Some (SectionRef_.relocations obj r)
        /\ (rr_section (SectionRef_.relocations obj r) <> s <-> r <> s)).
Proof.
  split; [|split].
  - intros sec H. now rewrite relocations_flag_set.
  - intros sec H. now rewrite relocations_flag_unset.
  - intros s r. split; [reflexivity|]. simpl. tauto.
Qed.

Lemma relocations_selects_view_witness :
  fst (Section_.relocations Samples.objR (Section2 0%nat 1%nat))
  = option_map (SectionRef_.relocations Samples.objR) (Some 1%nat)
  /\ fst (Section_.relocations Samples.objR (Section1 0%nat))
     = Some (SectionRef_.relocations Samples.objR 0%nat).
Proof.
  split.
  - apply (proj1 (relocations_selects_view Samples.objR) (Section2 0%nat 1%nat)).
    reflexivity.
  - apply (proj1 (proj2 (relocations_selects_view Samples.objR)) (Section1 0%nat)).
    reflexivity.
Defined.

(** C10.  The one-argument constructor builds a [Section] whose flag is
    unset, the two-argument constructor one whose flag is set and whose
    reloc view is the section supplied; no method of [Section] reads the
    member [reloc] of a [Section] whose flag is unset, and every method is
    defined on a [Section] built by either constructor. *)
Theorem reloc_read_only_when_flag_set (obj : ObjectFile) (s r : SectionRef) :
  separateRelocSec (Section1 s) = false
  /\ (separateRelocSec (Section2 s r) = true /\ reloc (Section2 s r) = Some r)
  /\ (forall (m : SectionMethod) (sec : SectionInfo),
        In F_reloc (reads_of obj m sec) -> separateRelocSec sec = true)
  /\ (forall m : SectionMethod,
        defined_on obj m (Section1 s) = true /\ defined_on obj m (Section2 s r) = true).
Proof.
  split; [reflexivity|]. split; [now split|]. split.
  - intros m sec Hin.
    destruct m; simpl in Hin;
      try (destruct Hin as [Hin|[]]; discriminate).
    destruct (separateRelocSec sec) eqn:Hflag; [reflexivity|].
    rewrite relocations_flag_unset in Hin by assumption.
    simpl in Hin. destruct Hin as [Hin|[Hin|[]]]; discriminate.
  - intros m. destruct m; split; reflexivity.
Qed.

Lemma reloc_read_only_when_flag_set_witness :
  separateRelocSec (Section2 0%nat 1%nat) = true.
Proof.
  apply (proj1 (proj2 (proj2 (reloc_read_only_when_flag_set Samples.objR 0%nat 1%nat)))
           M_relocations (Section2 0%nat 1%nat)).
  simpl. right. left. reflexivity.
Defined.

(** C4 as stated fails: in [Samples.objR] section 1 holds the relocation
    records of the text section 0.  [_relocationSect] accepts section 1 (it
    answers with section 0, not with [section_end()]) although section 1
    does not pass [_includeSect]; and [_computeSize] pairs section 1 with
    the text section as its separate-reloc view. *)
Lemma relocationSect_accepts_unincluded_holder :
  let st := Samples.fresh Samples.objR in
  SectionRef_.getRelocatedSection Samples.objR 1%nat = Success 0%nat
  /\ (exists st', _relocationSect 1%nat st = OK (0%nat, st'))
  /\ 0%nat <> section_end Samples.objR
  /\ (exists st', _includeSect 1%nat st = OK (false, st'))
  /\ _sects (this (Samples.built Samples.objR)) = [Section2 0%nat 1%nat].
Proof.
  repeat split; try (eexists; reflexivity); try discriminate.
Qed.

(** C4, amended.  [_relocationSect] asks the Object Reader which section
    the relocation records of its argument apply to.  When the reader names
    one, it is not [section_end()] and it passes [_includeSect], that
    section is the answer; in every other case (the reader names none, it
    names [section_end()], or the section named is not included) the answer
    is [section_end()].  The object is left as it was.  A [Section] without
    a separate view reads its relocations from the primary section. *)
Theorem relocationSect_checks_relocated_section (st : State) (s : SectionRef) :
  let obj := _obj (this st) in
  let vt := _vptr (this st) in
  exists (it : section_iterator) (new : list Event),
    _relocationSect s st = OK (it, after st new)
    /\ (it <> section_end obj ->
          SectionRef_.getRelocatedSection obj s = Success it
          /\ included_by_spec vt obj (deref it) = true)
    /\ (forall r, SectionRef_.getRelocatedSection obj s = Success r ->
          r <> section_end obj -> included_by_spec vt obj (deref r) = true ->
          it = r)
    /\ ((exists msg, SectionRef_.getRelocatedSection obj s = Failure msg)
        \/ SectionRef_.getRelocatedSection obj s = Success (section_end obj)
        \/ (exists r, SectionRef_.getRelocatedSection obj s = Success r
                      /\ included_by_spec vt obj (deref r) = false) ->
        it = section_end obj)
    /\ (forall p, fst (Section_.relocations obj (Section1 p))
                  = Some (SectionRef_.relocations obj p)).
Proof.
  intros obj vt.
  exists (relocated_included vt obj s), (relocationSect_calls obj s).
  split; [apply relocationSect_run|].
  assert (Hlast : forall p, fst (Section_.relocations obj (Section1 p))
                            = Some (SectionRef_.relocations obj p))
    by (intros p; reflexivity).
  unfold relocated_included.
  destruct (SectionRef_.getRelocatedSection obj s) as [it|msg] eqn:Hrel;
    [destruct (Nat.eqb it (section_end obj)) eqn:Hend;
       [apply Nat.eqb_eq in Hend | apply Nat.eqb_neq in Hend];
       simpl; [|destruct (included_by_spec vt obj (deref it)) eqn:Hinc] |].
  all: split; [intros H | split; [intros r Hr Hne Hi | split; [|exact Hlast]]].
  all: try (intros [[msg' Hm]|[He|[r [Hr Hf]]]]).
  all: try congruence.
  all: try (split; congruence).
Qed.

Lemma relocationSect_checks_relocated_section_witness :
  exists st', _relocationSect 1%nat (Samples.fresh Samples.objR) = OK (0%nat, st').
Proof.
  destruct (relocationSect_checks_relocated_section (Samples.fresh Samples.objR) 1%nat)
    as (it & new & Hrun & _ & Hyes & _).
  exists (after (Samples.fresh Samples.objR) new).
  rewrite Hrun. f_equal. f_equal.
  apply (Hyes 0%nat); [reflexivity | discriminate | reflexivity].
Defined.

(** ** [_computeSize] *)

Lemma consulted_is_consult obj s : forallb is_consult (consulted obj s) = true.
Proof. unfold consulted. now destruct (_ && _). Qed.

Lemma relocationSect_calls_consult obj s :
  forallb is_consult (relocationSect_calls obj s) = true.
Proof.
  unfold relocationSect_calls.
  destruct (SectionRef_.getRelocatedSection obj s); [|reflexivity].
  destruct (negb _); [apply consulted_is_consult | reflexivity].
Qed.

Lemma forallb_consult_app l1 l2 :
  forallb is_consult l1 = true -> forallb is_consult l2 = true ->
  forallb is_consult (l1 ++ l2) = true.
Proof. intros H1 H2. rewrite forallb_app, H1, H2. reflexivity. Qed.

Lemma locateRelocs_run (s : SectionRef) (cands : list SectionRef) :
  forall st, exists new,
    locateRelocs s cands st
    = OK (holder_of (_vptr (this st)) (_obj (this st)) s cands, after st new)
    /\ forallb is_consult new = true.
Proof.
  induction cands as [|r rest IH]; intros st.
  - exists []. rewrite after_nil. split; reflexivity.
  - simpl. unfold bind at 1. rewrite relocationSect_run.
    unfold bind at 1, gets at 1. simpl.
    destruct (negb (Nat.eqb (relocated_included _ _ r) (section_end _))
              && Nat.eqb (relocated_included _ _ r) (iter_of s)).
    + eexists. split; [reflexivity|]. apply relocationSect_calls_consult.
    + destruct (IH (after st (relocationSect_calls (_obj (this st)) r)))
        as (new & Hrun & Hnew).
      simpl in Hrun. rewrite Hrun, after_after.
      eexists. split; [reflexivity|].
      apply forallb_consult_app; [apply relocationSect_calls_consult | exact Hnew].
Qed.

Lemma consider_run (x : SectionRef) (st : State) :
  exists new,
    consider x st = OK (tt, {| this := grow1 (this st) x; calls := calls st ++ new |})
    /\ forallb is_consult new = true.
Proof.
  unfold consider, grow1. unfold bind at 1. rewrite includeSect_run.
  destruct (included_by_spec (_vptr (this st)) (_obj (this st)) x) eqn:Hinc.
  - unfold bind at 1, gets at 1. simpl.
    unfold bind at 1.
    destruct (locateRelocs_run x (all_sections (_obj (this st)))
                (after st (consulted (_obj (this st)) x))) as (new & Hrun & Hnew).
    simpl in Hrun. rewrite Hrun, after_after.
    exists (consulted (_obj (this st)) x ++ new).
    split; [|apply forallb_consult_app; [apply consulted_is_consult | exact Hnew]].
    unfold paired. reflexivity.
  - exists (consulted (_obj (this st)) x).
    split; [reflexivity | apply consulted_is_consult].
Qed.

Lemma grow1_frame co x :
  _vptr (grow1 co x) = _vptr co /\ _obj (grow1 co x) = _obj co
  /\ _tgt (grow1 co x) = _tgt co.
Proof. unfold grow1. destruct (included_by_spec _ _ x); repeat split. Qed.

Lemma grow_frame xs : forall co,
  _vptr (grow co xs) = _vptr co /\ _obj (grow co xs) = _obj co
  /\ _tgt (grow co xs) = _tgt co.
Proof.
  induction xs as [|x xs IH]; intros co; [repeat split|].
  unfold grow in *. simpl.
  destruct (IH (grow1 co x)) as (H1 & H2 & H3).
  destruct (grow1_frame co x) as (G1 & G2 & G3).
  rewrite H1, H2, H3. auto.
Qed.

Lemma grow_sects xs : forall co,
  _sects (grow co xs)
  = _sects co ++ map (paired (_vptr co) (_obj co))
                     (List.filter (included_by_spec (_vptr co) (_obj co)) xs).
Proof.
  induction xs as [|x xs IH]; intros co.
  - simpl. now rewrite app_nil_r.
  - unfold grow in *. simpl fold_left. rewrite IH.
    destruct (grow1_frame co x) as (G1 & G2 & _). rewrite G1, G2.
    unfold grow1. simpl List.filter.
    destruct (included_by_spec (_vptr co) (_obj co) x); simpl; [|reflexivity].
    now rewrite <- app_assoc.
Qed.

Lemma grow_szb xs : forall co,
  _szb (grow co xs)
  = fold_left (fun total sz => wrap64 (roundUp total (ti_wordSzB (_tgt co)) + sz))
      (map (SectionRef_.getSize (_obj co))
           (List.filter (included_by_spec (_vptr co) (_obj co)) xs))
      (_szb co).
Proof.
  induction xs as [|x xs IH]; intros co; [reflexivity|].
  unfold grow in *. simpl fold_left at 1. rewrite IH.
  destruct (grow1_frame co x) as (G1 & G2 & G3). rewrite G1, G2, G3.
  unfold grow1. simpl List.filter.
  destruct (included_by_spec (_vptr co) (_obj co) x); reflexivity.
Qed.

Lemma for_each_consider_run (xs : list SectionRef) :
  forall st, exists new,
    for_each xs consider st
    = OK (tt, {| this := grow (this st) xs; calls := calls st ++ new |})
    /\ forallb is_consult new = true.
Proof.
  induction xs as [|x xs IH]; intros st.
  - exists []. simpl. unfold ret. rewrite app_nil_r. destruct st. split; reflexivity.
  - simpl. unfold bind at 1.
    destruct (consider_run x st) as (n1 & H1 & C1). rewrite H1.
    destruct (IH {| this := grow1 (this st) x; calls := calls st ++ n1 |})
      as (n2 & H2 & C2).
    rewrite H2. simpl. rewrite <- app_assoc.
    exists (n1 ++ n2). split; [reflexivity | now apply forallb_consult_app].
Qed.

Lemma computeSize_run (st : State) :
  exists new,
    _computeSize st
    = OK (tt, {| this := grow (this st) (all_sections (_obj (this st)));
                 calls := calls st ++ Call_computeSize :: new |})
    /\ forallb is_consult new = true.
Proof.
  unfold _computeSize. unfold bind at 1, record at 1.
  unfold bind at 1, gets at 1. simpl.
  destruct (for_each_consider_run (all_sections (_obj (this st)))
              {| this := this st; calls := calls st ++ [Call_computeSize] |})
    as (new & Hrun & Hnew).
  rewrite Hrun. simpl. rewrite <- app_assoc. simpl.
  exists new. split; [reflexivity | exact Hnew].
Qed.

Lemma roundUp_bounds (n : Z) (w : positive) :
  n <= roundUp n w < n + Z.pos w.
Proof.
  unfold roundUp.
  pose proof (Z.div_mod (n + Z.pos w - 1) (Z.pos w) ltac:(lia)) as Hdm.
  pose proof (Z.mod_pos_bound (n + Z.pos w - 1) (Z.pos w) ltac:(lia)) as Hb.
  lia.
Qed.

Lemma padded_fold_ge (w : positive) (sizes : list Z) :
  Forall (fun z => 0 <= z) sizes ->
  forall total,
    total <= fold_left (fun t sz => roundUp t w + sz) sizes total.
Proof.
  induction 1 as [|sz rest Hsz _ IH]; intros total; simpl; [lia|].
  specialize (IH (roundUp total w + sz)).
  pose proof (roundUp_bounds total w). lia.
Qed.

Lemma padded_fold_no_overflow (w : positive) (sizes : list Z) :
  Forall (fun z => 0 <= z) sizes ->
  forall total,
    0 <= total ->
    fold_left (fun t sz => roundUp t w + sz) sizes total < 2 ^ 64 ->
    fold_left (fun t sz => wrap64 (roundUp t w + sz)) sizes total
    = fold_left (fun t sz => roundUp t w + sz) sizes total.
Proof.
  induction 1 as [|sz rest Hsz Hrest IH]; intros total Hpos Hlt; simpl in *;
    [reflexivity|].
  pose proof (roundUp_bounds total w) as Hr.
  pose proof (padded_fold_ge w rest Hrest (roundUp total w + sz)) as Hge.
  assert (Hw : wrap64 (roundUp total w + sz) = roundUp total w + sz)
    by (unfold wrap64; apply Z.mod_small; lia).
  rewrite Hw. apply IH; lia.
Qed.

Lemma sect_paired vt obj s : sect (paired vt obj s) = s.
Proof. unfold paired. now destruct (holder_of vt obj s _). Qed.

Lemma map_sect_paired vt obj l : map sect (map (paired vt obj) l) = l.
Proof.
  induction l as [|s l IH]; simpl; [reflexivity|].
  now rewrite sect_paired, IH.
Qed.

(** The separate view of a [Section] that [_computeSize] builds is a section
    for which [_relocationSect] answers the primary section; a [Section]
    built without one has no such section in the object file. *)
Lemma paired_view_holds_records vt obj s :
  match reloc (paired vt obj s) with
  | Some r =>
      separateRelocSec (paired vt obj s) = true
      /\ In r (all_sections obj)
      /\ relocated_included vt obj r = iter_of s
      /\ relocated_included vt obj r <> section_end obj
  | None =>
      separateRelocSec (paired vt obj s) = false
      /\ forall r, In r (all_sections obj) ->
           relocated_included vt obj r <> section_end obj ->
           relocated_included vt obj r <> iter_of s
  end.
Proof.
  unfold paired, holder_of.
  destruct (List.find _ (all_sections obj)) as [r|] eqn:Hfind; simpl.
  - apply find_some in Hfind. destruct Hfind as [Hin Hr].
    apply andb_true_iff in Hr. destruct Hr as [Hne Heq].
    apply negb_true_iff, Nat.eqb_neq in Hne. apply Nat.eqb_eq in Heq.
    auto.
  - split; [reflexivity|]. intros r Hin Hne Heq.
    pose proof (find_none _ _ Hfind r Hin) as Hr. simpl in Hr.
    apply Nat.eqb_neq in Hne. apply Nat.eqb_eq in Heq.
    rewrite Hne, Heq in Hr. discriminate.
Qed.

(** What construction followed by [_computeSize] yields. *)
Lemma constructed_object (vt : TargetPolicy) (tgt : target_info) (obj : ObjectFile) :
  exists st new,
    _computeSize {| this := ctor vt tgt obj; calls := [] |} = OK (tt, st)
    /\ calls st = Call_computeSize :: new
    /\ forallb is_consult new = true
    /\ _vptr (this st) = vt /\ _tgt (this st) = tgt /\ _obj (this st) = obj
    /\ _sects (this st)
       = map (paired vt obj) (List.filter (included_by_spec vt obj) (all_sections obj))
    /\ _szb (this st)
       = padded_sum (ti_wordSzB tgt)
           (map (SectionRef_.getSize obj)
                (List.filter (included_by_spec vt obj) (all_sections obj))).
Proof.
  destruct (computeSize_run {| this := ctor vt tgt obj; calls := [] |})
    as (new & Hrun & Hnew).
  simpl in Hrun.
  eexists. exists new. split; [exact Hrun|]. simpl.
  destruct (grow_frame (all_sections obj) (ctor vt tgt obj)) as (H1 & H2 & H3).
  repeat split; try assumption.
  - now rewrite grow_sects.
  - now rewrite grow_szb.
Qed.

(** C1.  For every object file, construction followed by [_computeSize]
    returns; [_sects] then holds, in the order of the object file, exactly
    the sections that are text or are data approved by [_includeDataSect],
    a section failing both tests is not in [_sects], and [size()] is the sum
    of the sizes of the sections of [_sects], taken in that order, each
    section starting at the sum so far rounded up to the word size of the
    target.  The sum is formed in [size_t]; it is the sum over the integers
    whenever that one fits in [size_t]. *)
Theorem size_is_padded_sum_of_included_sections
    (vt : TargetPolicy) (tgt : target_info) (obj : ObjectFile) :
  let included := List.filter (included_by_spec vt obj) (all_sections obj) in
  let sizes := map (SectionRef_.getSize obj) included in
  exists st,
    _computeSize {| this := ctor vt tgt obj; calls := [] |} = OK (tt, st)
    /\ size (this st) = padded_sum (ti_wordSzB tgt) sizes
    /\ map sect (_sects (this st)) = included
    /\ (forall s, In s (map sect (_sects (this st))) <->
          (s < length (obj_sections obj))%nat
          /\ (SectionRef_.isText obj s = true
              \/ (SectionRef_.isData obj s = true
                  /\ @_includeDataSect vt obj s = true)))
    /\ (forall s, SectionRef_.isText obj s = false ->
          SectionRef_.isData obj s = false \/ @_includeDataSect vt obj s = false ->
          ~ In s (map sect (_sects (this st))))
    /\ (Forall (fun z => 0 <= z) sizes ->
        padded_sum_Z (ti_wordSzB tgt) sizes < 2 ^ 64 ->
        size (this st) = padded_sum_Z (ti_wordSzB tgt) sizes).
Proof.
  intros included sizes.
  destruct (constructed_object vt tgt obj)
    as (st & new & Hrun & _ & _ & _ & _ & _ & Hsects & Hszb).
  assert (Hmap : map sect (_sects (this st)) = included)
    by (rewrite Hsects; apply map_sect_paired).
  assert (Hin : forall s, In s included <->
            (s < length (obj_sections obj))%nat
            /\ (SectionRef_.isText obj s = true
                \/ (SectionRef_.isData obj s = true
                    /\ @_includeDataSect vt obj s = true))).
  { intros s. unfold included. rewrite filter_In. unfold all_sections.
    rewrite in_seq. unfold included_by_spec.
    rewrite orb_true_iff, andb_true_iff.
    split; intros [H1 H2]; (split; [lia | exact H2]). }
  exists st. split; [exact Hrun|]. split; [exact Hszb|]. split; [exact Hmap|].
  split; [|split].
  - intros s. rewrite Hmap. apply Hin.
  - intros s Ht Hd. rewrite Hmap, Hin. intros [_ [H|[H1 H2]]]; destruct Hd; congruence.
  - intros Hpos Hfit. unfold size. rewrite Hszb. unfold padded_sum, padded_sum_Z.
    apply padded_fold_no_overflow; [exact Hpos | lia | exact Hfit].
Qed.

Lemma size_is_padded_sum_of_included_sections_witness :
  exists st,
    _computeSize (Samples.fresh Samples.objA) = OK (tt, st)
    /\ size (this st) = 24
    /\ map sect (_sects (this st)) = [0%nat; 1%nat].
Proof.
  destruct (size_is_padded_sum_of_included_sections Samples.amd64 Samples.x86_64 Samples.objA)
    as (st & Hrun & _ & Hsects & _ & _ & Hsize).
  exists st. split; [exact Hrun|]. split; [|exact Hsects].
  rewrite Hsize; [reflexivity | | reflexivity].
  repeat constructor; discriminate.
Defined.

(** ** [create] *)

(** C6.  For every buffer whose target architecture or object format is not
    recognised, [create] returns and yields no object.  It never dies; and
    when it yields an object, the object is complete: its hooks, target and
    object file are those of the buffer and its sections and size are the
    ones [_computeSize] selects and sums. *)
Theorem create_yields_no_object_when_unrecognised
    (createObjectFile : list byte -> option ObjectFile)
    (policyFor : target_info -> option TargetPolicy)
    (codeBuf : code_buffer) :
  (policyFor (cb_target codeBuf) = None \/ createObjectFile (cb_bytes codeBuf) = None ->
   create createObjectFile policyFor codeBuf = OK None)
  /\ (forall st, create createObjectFile policyFor codeBuf = OK (Some st) ->
        exists vt obj,
          policyFor (cb_target codeBuf) = Some vt
          /\ createObjectFile (cb_bytes codeBuf) = Some obj
          /\ this st
             = {| _vptr := vt; _tgt := cb_target codeBuf; _obj := obj;
                  _szb := padded_sum (ti_wordSzB (cb_target codeBuf))
                            (map (SectionRef_.getSize obj)
                               (List.filter (included_by_spec vt obj) (all_sections obj)));
                  _sects := map (paired vt obj)
                              (List.filter (included_by_spec vt obj) (all_sections obj)) |})
  /\ (forall msg, create createObjectFile policyFor codeBuf <> Fatal msg).
Proof.
  unfold create.
  destruct (policyFor (cb_target codeBuf)) as [vt|] eqn:Hvt;
    [destruct (createObjectFile (cb_bytes codeBuf)) as [obj|] eqn:Hobj|].
  - destruct (constructed_object vt (cb_target codeBuf) obj)
      as (st0 & new & Hrun & _ & _ & H1 & H2 & H3 & H4 & H5).
    rewrite Hrun. split; [|split].
    + intros [H|H]; discriminate.
    + intros st Hst. inversion Hst; subst st0. exists vt, obj.
      split; [reflexivity|]. split; [reflexivity|].
      destruct (this st); simpl in *. congruence.
    + discriminate.
  - split; [reflexivity|]. split; discriminate.
  - split; [reflexivity|]. split; discriminate.
Qed.

Lemma create_yields_no_object_when_unrecognised_witness :
  create Samples.reader Samples.targets Samples.bad_format = OK None
  /\ create Samples.reader Samples.targets Samples.bad_arch = OK None.
Proof.
  split.
  - apply (proj1 (create_yields_no_object_when_unrecognised
                    Samples.reader Samples.targets Samples.bad_format)).
    right. reflexivity.
  - apply (proj1 (create_yields_no_object_when_unrecognised
                    Samples.reader Samples.targets Samples.bad_arch)).
    left. reflexivity.
Defined.

(** ** What the methods leave untouched *)

Lemma bind_OK {A B} (m : M A) (k : A -> M B) st b st' :
  bind m k st = OK (b, st') ->
  exists a st1, m st = OK (a, st1) /\ k a st1 = OK (b, st').
Proof.
  unfold bind. destruct (m st) as [[a st1]|msg]; [|discriminate].
  intros H. now exists a, st1.
Qed.

(** One record either dies or patches the memory and nothing else. *)
Lemma resolve_one_OK sec code r m st m' st' :
  resolve_one sec code r m st = OK (m', st') ->
  st' = st
  /\ exists k here there,
       @relocKind (_vptr (this st)) (rel_type r) = Some k
       /\ assigned (layout (this st)) (sect sec) = Some here
       /\ assigned (layout (this st)) (rel_section r) = Some there
       /\ m' = patch (ti_bigEndian (_tgt (this st))) k
                 (code - here + there + rel_value r + rel_addend r
                  - (if rk_pcrel k then code + rel_offset r else 0))
                 (code + rel_offset r) m.
Proof.
  unfold resolve_one, bind, gets, ret, die. simpl.
  destruct (relocKind (rel_type r)) as [k|]; [|discriminate].
  destruct (assigned (layout (this st)) (sect sec)) as [here|]; [|discriminate].
  destruct (assigned (layout (this st)) (rel_section r)) as [there|]; [|discriminate].
  intros H. inversion H; subst. split; [reflexivity|].
  exists k, here, there. repeat split.
Qed.

Lemma resolve_all_state sec code rs : forall m st m' st',
  resolve_all sec code rs m st = OK (m', st') -> st' = st.
Proof.
  induction rs as [|r rs IH]; intros m st m' st' H; simpl in H.
  - inversion H; reflexivity.
  - apply bind_OK in H. destruct H as (m1 & st1 & H1 & H2).
    apply resolve_one_OK in H1. destruct H1 as [-> _].
    now apply IH in H2.
Qed.

Lemma resolveRelocs_OK sec code m st m' st' :
  _resolveRelocs sec code m st = OK (m', st') ->
  st' = after st [Call_resolveRelocs (sect sec)]
  /\ exists range,
       fst (Section_.relocations (_obj (this st)) sec) = Some range
       /\ resolve_all sec code (rr_entries range) m
            (after st [Call_resolveRelocs (sect sec)]) = OK (m', st').
Proof.
  unfold _resolveRelocs. unfold bind at 1, record at 1. unfold bind at 1, gets at 1.
  simpl. fold (after st [Call_resolveRelocs (sect sec)]).
  destruct (fst (Section_.relocations (_obj (this st)) sec)) as [range|];
    [|discriminate].
  intros H. split; [|exists range; split; [reflexivity | exact H]].
  now apply resolve_all_state in H.
Qed.

Lemma copy_all_state code lay : forall m st m' st',
  copy_all code lay m st = OK (m', st') ->
  exists new, st' = after st new /\ forallb is_resolve new = true.
Proof.
  induction lay as [|[sec off] lay IH]; intros m st m' st' H; simpl in H.
  - inversion H; subst. exists []. now rewrite after_nil.
  - unfold bind at 1, gets at 1 in H. simpl in H.
    destruct (SectionRef_.getContents (_obj (this st)) (sect sec)) as [bytes|];
      [|discriminate].
    apply bind_OK in H. destruct H as (m1 & st1 & H1 & H2).
    apply resolveRelocs_OK in H1. destruct H1 as [-> _].
    apply IH in H2. destruct H2 as (new & -> & Hnew).
    rewrite after_after. eexists; split; [reflexivity|]. simpl. exact Hnew.
Qed.

Lemma getCode_state code m st m' st' :
  getCode code m st = OK (m', st') ->
  exists new, st' = after st (Call_getCode code :: new)
              /\ forallb is_resolve new = true.
Proof.
  unfold getCode. unfold bind at 1, record at 1. unfold bind at 1, gets at 1.
  simpl. fold (after st [Call_getCode code]). intros H.
  apply copy_all_state in H. destruct H as (new & -> & Hnew).
  rewrite after_after. exists new. split; [reflexivity | exact Hnew].
Qed.

Lemma dump_all_run bits sects : forall st,
  exists lines, dump_all bits sects st = OK (lines, st).
Proof.
  induction sects as [|sec sects IH]; intros st; simpl.
  - now exists [].
  - unfold bind at 1, gets at 1. simpl.
    unfold bind at 1. destruct (IH st) as (more & ->).
    destruct bits; [|eexists; reflexivity].
    unfold bind, _dumpRelocs, gets, ret. simpl. eexists; reflexivity.
Qed.

Lemma dump_run bits st :
  exists lines, dump bits st = OK (lines, after st [Call_dump bits]).
Proof.
  unfold dump. unfold bind at 1, record at 1. unfold bind at 1, gets at 1.
  simpl. fold (after st [Call_dump bits]).
  apply (dump_all_run bits (_sects (this st)) (after st [Call_dump bits])).
Qed.

Lemma resolve_not_computeSize new :
  forallb is_resolve new = true -> ~ In Call_computeSize new.
Proof.
  intros H Hin. rewrite forallb_forall in H. apply H in Hin. discriminate.
Qed.

Lemma serve_state q st r st' :
  serve q st = OK (r, st') ->
  exists new, st' = after st new /\ ~ In Call_computeSize new.
Proof.
  destruct q as [|code m|bits]; simpl; intros H.
  - inversion H; subst. exists []. now rewrite after_nil.
  - apply bind_OK in H. destruct H as (m' & st1 & H1 & H2).
    inversion H2; subst. apply getCode_state in H1.
    destruct H1 as (new & -> & Hnew). eexists; split; [reflexivity|].
    intros [Hin|Hin]; [discriminate|]. now apply resolve_not_computeSize in Hin.
  - apply bind_OK in H. destruct H as (l & st1 & H1 & H2).
    inversion H2; subst. destruct (dump_run bits st) as (lines & Hd).
    rewrite Hd in H1. inversion H1; subst. eexists; split; [reflexivity|].
    intros [Hin|[]]; discriminate.
Qed.

Lemma serve_all_state qs : forall st rs st',
  serve_all qs st = OK (rs, st') ->
  (exists new, st' = after st new /\ ~ In Call_computeSize new)
  /\ (forall n, In (Rep_size n) rs -> n = _szb (this st)).
Proof.
  induction qs as [|q qs IH]; intros st rs st' H; simpl in H.
  - inversion H; subst. split; [exists []; now rewrite after_nil|].
    intros n [].
  - apply bind_OK in H. destruct H as (r & st1 & H1 & H).
    apply bind_OK in H. destruct H as (rs' & st2 & H2 & H3).
    inversion H3; subst.
    pose proof H1 as Hq. apply serve_state in H1. destruct H1 as (n1 & -> & Hn1).
    apply IH in H2. destruct H2 as ((n2 & -> & Hn2) & Hsz).
    split.
    + rewrite after_after. eexists; split; [reflexivity|].
      rewrite in_app_iff. tauto.
    + intros n [Hin|Hin]; [|apply (Hsz n Hin)].
      subst r. destruct q; simpl in Hq.
      * inversion Hq; reflexivity.
      * apply bind_OK in Hq. destruct Hq as (? & ? & _ & Hq). discriminate.
      * apply bind_OK in Hq. destruct Hq as (? & ? & _ & Hq). discriminate.
Qed.

(** ** Runs depend on the object only *)

Lemma object_only_ret {A} (a : A) : object_only (ret a).
Proof. intros st1 st2 H. simpl. auto. Qed.

Lemma object_only_die {A} msg : object_only (@die A msg).
Proof. intros st1 st2 H. reflexivity. Qed.

Lemma object_only_gets {A} (f : CodeObject -> A) : object_only (gets f).
Proof. intros st1 st2 H. simpl. now rewrite H. Qed.

Lemma object_only_record e : object_only (record e).
Proof. intros st1 st2 H. simpl. auto. Qed.


Create HintDb object_only.

#[local] Hint Resolve object_only_ret object_only_die object_only_gets
  object_only_record : object_only.







(** ** The lifetime of an object *)

Lemma consult_not_computeSize new :
  forallb is_consult new = true -> ~ In Call_computeSize new.
Proof.
  intros H Hin. rewrite forallb_forall in H. apply H in Hin. discriminate.
Qed.

Lemma create_OK createObjectFile policyFor codeBuf st0 :
  create createObjectFile policyFor codeBuf = OK (Some st0) ->
  exists new, calls st0 = Call_computeSize :: new /\ forallb is_consult new = true.
Proof.
  unfold create.
  destruct (policyFor (cb_target codeBuf)) as [vt|]; [|discriminate].
  destruct (createObjectFile (cb_bytes codeBuf)) as [obj|]; [|discriminate].
  destruct (constructed_object vt (cb_target codeBuf) obj)
    as (st & new & Hrun & Hcalls & Hnew & _).
  rewrite Hrun. intros H. inversion H; subst. now exists new.
Qed.

Lemma create_Some createObjectFile policyFor codeBuf st0 :
  create createObjectFile policyFor codeBuf = OK (Some st0) ->
  exists vt obj,
    policyFor (cb_target codeBuf) = Some vt
    /\ createObjectFile (cb_bytes codeBuf) = Some obj
    /\ _computeSize {| this := ctor vt (cb_target codeBuf) obj; calls := [] |}
       = OK (tt, st0).
Proof.
  unfold create.
  destruct (policyFor (cb_target codeBuf)) as [vt|]; [|discriminate].
  destruct (createObjectFile (cb_bytes codeBuf)) as [obj|]; [|discriminate].
  destruct (_computeSize _) as [[[] st]|msg] eqn:Hrun; [|discriminate].
  intros H. inversion H; subst. now exists vt, obj.
Qed.

(** A run of [_computeSize] appends the sections it selects to [_sects]. *)
Lemma computeSize_appends st st' :
  _computeSize st = OK (tt, st') ->
  _sects (this st')
  = _sects (this st)
    ++ map (paired (_vptr (this st)) (_obj (this st)))
         (List.filter (included_by_spec (_vptr (this st)) (_obj (this st)))
            (all_sections (_obj (this st)))).
Proof.
  intros Hrun. destruct (computeSize_run st) as (new & Hrun' & _).
  rewrite Hrun in Hrun'. inversion Hrun'; subst st'. simpl. apply grow_sects.
Qed.

(** C9.  In every object [create] yields, [_computeSize] has run once,
    before anything else was called, and [_szb] is the sum it computed: the
    word-aligned sum of the sizes of the sections it selected from the
    object file of the buffer, which are the sections of [_sects].
    Whatever sequence of [size], [getCode] and [dump] calls follows,
    [_computeSize] does not run again, the object and with it [_szb] stay
    what they were, and every [size()] returns that sum; a further run of
    [_computeSize] would show, as it would append the selected sections to
    [_sects] a second time.  A call of [size()] changes nothing at all. *)
Theorem szb_computed_once_then_fixed
    (createObjectFile : list byte -> option ObjectFile)
    (policyFor : target_info -> option TargetPolicy)
    (codeBuf : code_buffer) (st0 : State) :
  create createObjectFile policyFor codeBuf = OK (Some st0) ->
  (exists new, calls st0 = Call_computeSize :: new /\ forallb is_consult new = true)
  /\ count_occ Event_eq_dec (calls st0) Call_computeSize = 1%nat
  /\ (forall qs rs st, serve_all qs st0 = OK (rs, st) ->
        this st = this st0
        /\ (exists more, calls st = calls st0 ++ more)
        /\ count_occ Event_eq_dec (calls st) Call_computeSize = 1%nat
        /\ (forall n, In (Rep_size n) rs -> n = size (this st0)))
  /\ (forall st, serve Req_size st = OK (Rep_size (_szb (this st)), st))
  /\ (exists vt obj,
        policyFor (cb_target codeBuf) = Some vt
        /\ createObjectFile (cb_bytes codeBuf) = Some obj
        /\ _szb (ctor vt (cb_target codeBuf) obj) = 0
        /\ _sects (this st0)
           = map (paired vt obj)
               (List.filter (included_by_spec vt obj) (all_sections obj))
        /\ size (this st0)
           = padded_sum (ti_wordSzB (cb_target codeBuf))
               (map (SectionRef_.getSize obj)
                  (List.filter (included_by_spec vt obj) (all_sections obj)))
        /\ (forall qs rs st n, serve_all qs st0 = OK (rs, st) ->
              In (Rep_size n) rs ->
              n = padded_sum (ti_wordSzB (cb_target codeBuf))
                    (map (SectionRef_.getSize obj)
                       (List.filter (included_by_spec vt obj) (all_sections obj)))))
  /\ sized (this st0)
  /\ (forall qs rs st st', serve_all qs st0 = OK (rs, st) ->
        _computeSize st = OK (tt, st') ->
        _sects (this st') = _sects (this st0) ++ _sects (this st0)).
Proof.
  intros Hcreate.
  destruct (create_Some _ _ _ _ Hcreate) as (vt & obj & Hvt & Hobj & Hsized).
  destruct (constructed_object vt (cb_target codeBuf) obj)
    as (st0' & new' & Hrun0 & _ & _ & Evt & Etgt & Eobj & Esects & Eszb).
  rewrite Hsized in Hrun0. inversion Hrun0; subst st0'. clear Hrun0.
  apply create_OK in Hcreate.
  destruct Hcreate as (new & Hcalls & Hnew).
  assert (Hone : count_occ Event_eq_dec (calls st0) Call_computeSize = 1%nat).
  { rewrite Hcalls. rewrite count_occ_cons_eq by reflexivity.
    f_equal. apply count_occ_not_In. now apply consult_not_computeSize. }
  split; [now exists new|]. split; [exact Hone|].
  split; [|split; [reflexivity|split; [|split]]].
  - intros qs rs st Hrun. apply serve_all_state in Hrun.
    destruct Hrun as ((more & -> & Hmore) & Hsz).
    split; [reflexivity|]. split; [now exists more|]. split; [|exact Hsz].
    simpl. rewrite count_occ_app, Hone.
    rewrite (proj1 (count_occ_not_In Event_eq_dec more Call_computeSize) Hmore).
    reflexivity.
  - exists vt, obj. split; [exact Hvt|]. split; [exact Hobj|].
    split; [reflexivity|]. split; [exact Esects|]. split; [exact Eszb|].
    intros qs rs st n Hrun Hin. apply serve_all_state in Hrun.
    destruct Hrun as (_ & Hsz). rewrite (Hsz n Hin). exact Eszb.
  - unfold sized. rewrite Eszb, Esects, Etgt, Eobj. f_equal.
    rewrite map_map. apply map_ext. intros x.
    unfold Section_.getSize, rd_bind, this_sect, rd_ret. simpl.
    now rewrite sect_paired.
  - intros qs rs st st' Hrun Hagain. apply serve_all_state in Hrun.
    destruct Hrun as ((more & -> & _) & _).
    rewrite (computeSize_appends _ _ Hagain). simpl.
    rewrite Evt, Eobj, <- Esects. reflexivity.
Qed.

Lemma szb_computed_once_then_fixed_witness :
  exists st0,
    create Samples.reader Samples.targets Samples.good_buffer = OK (Some st0)
    /\ count_occ Event_eq_dec (calls st0) Call_computeSize = 1%nat.
Proof.
  exists (Samples.built Samples.objA).
  assert (H : create Samples.reader Samples.targets Samples.good_buffer
              = OK (Some (Samples.built Samples.objA))) by reflexivity.
  split; [exact H|].
  apply (proj1 (proj2 (szb_computed_once_then_fixed _ _ _ _ H))).
Defined.

(** ** [getCode] and the object *)

(** [getCode] leaves the object as it was. *)
Lemma getCode_this code m st m' st' :
  getCode code m st = OK (m', st') -> this st' = this st.
Proof.
  intros H. apply getCode_state in H. now destruct H as (new & -> & _).
Qed.

(** ** Unknown relocation types *)

Lemma resolve_one_resolvable sec code r m st :
  resolvable (this st) sec r = true ->
  exists m', resolve_one sec code r m st = OK (m', st).
Proof.
  unfold resolvable, resolve_one, bind, gets, ret. simpl.
  destruct (relocKind (rel_type r)); [|discriminate].
  destruct (assigned (layout (this st)) (sect sec)); [|discriminate].
  destruct (assigned (layout (this st)) (rel_section r)); [|discriminate].
  intros _. eexists; reflexivity.
Qed.

Lemma resolve_one_unknown sec code r m st :
  @relocKind (_vptr (this st)) (rel_type r) = None ->
  resolve_one sec code r m st
  = Fatal (unknown_reloc (@_relocTypeToString (_vptr (this st)) (rel_type r))).
Proof.
  intros H. unfold resolve_one, bind, gets, die. simpl. now rewrite H.
Qed.

Lemma resolve_all_unknown sec code r post pre : forall m st,
  forallb (resolvable (this st) sec) pre = true ->
  @relocKind (_vptr (this st)) (rel_type r) = None ->
  resolve_all sec code (pre ++ r :: post) m st
  = Fatal (unknown_reloc (@_relocTypeToString (_vptr (this st)) (rel_type r))).
Proof.
  induction pre as [|p pre IH]; intros m st Hpre Hr; simpl.
  - unfold bind. now rewrite resolve_one_unknown.
  - simpl in Hpre. apply andb_true_iff in Hpre. destruct Hpre as [Hp Hpre].
    destruct (resolve_one_resolvable sec code p m st Hp) as (m1 & H1).
    unfold bind at 1. rewrite H1. now apply IH.
Qed.

Lemma resolve_all_never_past_unknown sec code r rs : forall m st m' st',
  In r rs ->
  @relocKind (_vptr (this st)) (rel_type r) = None ->
  resolve_all sec code rs m st <> OK (m', st').
Proof.
  induction rs as [|p rs IH]; intros m st m' st' Hin Hr H; [contradiction|].
  simpl in H. apply bind_OK in H. destruct H as (m1 & st1 & H1 & H2).
  destruct Hin as [->|Hin].
  - rewrite resolve_one_unknown in H1 by assumption. discriminate.
  - apply resolve_one_OK in H1. destruct H1 as [-> _].
    now apply (IH m1 st m' st' Hin Hr).
Qed.

(** C5.  When [_resolveRelocs] comes to a relocation record whose type the
    target does not recognise (the records before it having been resolved),
    it dies, and the message is made of the name [_relocTypeToString] gives
    to that type.  And whenever any record of the section has such a type,
    [_resolveRelocs] does not return: no memory with a patch for it comes
    back. *)
Theorem unknown_relocation_type_is_fatal
    (sec : SectionInfo) (code : Z) (m : Mem) (st : State)
    (range : relocation_range) (pre post : list RelocationRef) (r : RelocationRef) :
  fst (Section_.relocations (_obj (this st)) sec) = Some range ->
  rr_entries range = pre ++ r :: post ->
  forallb (resolvable (this st) sec) pre = true ->
  @relocKind (_vptr (this st)) (rel_type r) = None ->
  let name := @_relocTypeToString (_vptr (this st)) (rel_type r) in
  _resolveRelocs sec code m st = Fatal (unknown_reloc name)
  /\ (exists prefix, unknown_reloc name = (prefix ++ name)%string)
  /\ (forall m' st', _resolveRelocs sec code m st <> OK (m', st')).
Proof.
  intros Hrange Hsplit Hpre Hr name.
  assert (Hrun : _resolveRelocs sec code m st = Fatal (unknown_reloc name)).
  { unfold _resolveRelocs. unfold bind at 1, record at 1.
    unfold bind at 1, gets at 1. simpl. rewrite Hrange, Hsplit.
    now apply resolve_all_unknown. }
  split; [exact Hrun|]. split.
  - now exists "unknown relocation type "%string.
  - intros m' st'. rewrite Hrun. discriminate.
Qed.

Lemma unknown_relocation_type_is_fatal_witness :
  _resolveRelocs (Section1 0%nat) 4096 Samples.zeros (Samples.built Samples.objC)
  = Fatal "unknown relocation type Unknown".
Proof.
  apply (unknown_relocation_type_is_fatal (Section1 0%nat) 4096 Samples.zeros
           (Samples.built Samples.objC)
           (SectionRef_.relocations Samples.objC 0%nat) [] []
           {| rel_offset := 4; rel_type := 99; rel_section := 0%nat;
              rel_value := 0; rel_addend := 0 |});
    reflexivity.
Defined.

(** Scenario C of the specification: materialising an object whose only
    relocation has an unknown type dies. *)
Example scenario_C :
  outcome (getCode 4096 Samples.zeros (Samples.built Samples.objC))
  = Fatal "unknown relocation type Unknown".
Proof. reflexivity. Qed.

Lemma resolveRelocs_never_past_unknown sec code m st range r :
  fst (Section_.relocations (_obj (this st)) sec) = Some range ->
  In r (rr_entries range) ->
  @relocKind (_vptr (this st)) (rel_type r) = None ->
  forall m' st', _resolveRelocs sec code m st <> OK (m', st').
Proof.
  intros Hrange Hin Hr m' st' H. apply resolveRelocs_OK in H.
  destruct H as (_ & range' & Hrange' & H).
  rewrite Hrange in Hrange'. inversion Hrange'; subst range'.
  revert H. now apply resolve_all_never_past_unknown with (r := r).
Qed.

(** ** Memory after a copy and after a patch *)

(** Case analysis on the integer comparisons of the goal. *)
Ltac zcases :=
  repeat first
    [ match goal with
      | |- context [(?x <? ?y)] =>
          let H := fresh "Hlt" in destruct (Z.ltb_spec0 x y) as [H|H]
      end
    | match goal with
      | |- context [(?x <=? ?y)] =>
          let H := fresh "Hle" in destruct (Z.leb_spec0 x y) as [H|H]
      end
    | match goal with
      | |- context [(?x =? ?y)] =>
          let H := fresh "Heq" in destruct (Z.eqb_spec x y) as [H|H]
      end ];
  cbn [andb orb negb].

Lemma memcpy_at (bs : list byte) : forall (m : Mem) (a x : Z),
  memcpy m a bs x
  = if (a <=? x) && (x <? a + Z.of_nat (length bs))
    then nth (Z.to_nat (x - a)) bs x00
    else m x.
Proof.
  induction bs as [|b bs IH]; intros m a x.
  - cbn [memcpy length]. zcases; try reflexivity; lia.
  - cbn [memcpy]. rewrite IH. cbn [length]. unfold store.
    zcases; try lia; try reflexivity.
    + replace (Z.to_nat (x - a)) with (S (Z.to_nat (x - (a + 1)))) by lia.
      reflexivity.
    + subst x. replace (a - a) with 0 by lia. reflexivity.
Qed.

Lemma patch_bytes_at be k v P (n : nat) : forall (s : nat) (m : Mem) (x : Z),
  fold_left (patch_byte be k v P) (seq s n) m x
  = if (P + Z.of_nat s <=? x) && (x <? P + Z.of_nat s + Z.of_nat n)
    then patched_byte be k v (m x) (Z.to_nat (x - P))
    else m x.
Proof.
  induction n as [|n IH]; intros s m x.
  - cbn [seq fold_left]. zcases; try reflexivity; lia.
  - cbn [seq fold_left]. rewrite IH. unfold patch_byte, store.
    zcases; try lia; try reflexivity.
    subst x. unfold patched_byte.
    replace (Z.to_nat (P + Z.of_nat s - P)) with s by lia. reflexivity.
Qed.

Lemma patch_at be k v P (m : Mem) (x : Z) :
  patch be k v P m x
  = if (P <=? x) && (x <? P + Z.of_nat (rk_width k))
    then patched_byte be k v (m x) (Z.to_nat (x - P))
    else m x.
Proof.
  unfold patch. rewrite patch_bytes_at.
  replace (P + Z.of_nat 0) with P by lia. reflexivity.
Qed.

(** ** Two runs of [getCode] *)

Lemma classic_range (lo len i : Z) : lo <= i < lo + len \/ ~ (lo <= i < lo + len).
Proof. lia. Qed.

Section TwoRuns.
Variable co : CodeObject.
Variables c1 c2 : Z.

Lemma patch_agree sec off range r k here there (m1 m2 : Mem) :
  In (sec, off) (layout co) ->
  fst (Section_.relocations (_obj co) sec) = Some range ->
  In r (rr_entries range) ->
  @relocKind (_vptr co) (rel_type r) = Some k ->
  forall i,
    agree co c1 c2 m1 m2 i ->
    agree co c1 c2
      (patch (ti_bigEndian (_tgt co)) k
         (c1 + off - here + there + rel_value r + rel_addend r
          - (if rk_pcrel k then c1 + off + rel_offset r else 0))
         (c1 + off + rel_offset r) m1)
      (patch (ti_bigEndian (_tgt co)) k
         (c2 + off - here + there + rel_value r + rel_addend r
          - (if rk_pcrel k then c2 + off + rel_offset r else 0))
         (c2 + off + rel_offset r) m2)
      i.
Proof.
  intros Hlay Hrange Hin Hk i Hag. unfold agree in *.
  rewrite !patch_at.
  destruct (Z.leb_spec (c1 + off + rel_offset r) (c1 + i));
    destruct (Z.leb_spec (c2 + off + rel_offset r) (c2 + i)); try lia;
    cbn [andb]; [|exact Hag].
  destruct (Z.ltb_spec (c1 + i) (c1 + off + rel_offset r + Z.of_nat (rk_width k)));
    destruct (Z.ltb_spec (c2 + i) (c2 + off + rel_offset r + Z.of_nat (rk_width k)));
    try lia; [|exact Hag].
  replace (c1 + i - (c1 + off + rel_offset r)) with (i - (off + rel_offset r)) by lia.
  replace (c2 + i - (c2 + off + rel_offset r)) with (i - (off + rel_offset r)) by lia.
  destruct (Z.eq_dec c1 c2) as [->|Hne].
  - destruct Hag as [Heq|[Hne _]]; [|contradiction]. left. now rewrite Heq.
  - destruct (rk_pcrel k) eqn:Hpc.
    + destruct Hag as [Heq|Habs]; [|now right]. left. rewrite Heq.
      f_equal. lia.
    + right. split; [exact Hne|].
      exists sec, off, range, r, k. repeat split; try assumption; lia.
Qed.

Lemma resolve_all_agree sec off range rs :
  In (sec, off) (layout co) ->
  fst (Section_.relocations (_obj co) sec) = Some range ->
  incl rs (rr_entries range) ->
  forall m1 m2 st1 st2 m1' m2' st1' st2',
    this st1 = co -> this st2 = co ->
    resolve_all sec (c1 + off) rs m1 st1 = OK (m1', st1') ->
    resolve_all sec (c2 + off) rs m2 st2 = OK (m2', st2') ->
    forall i, agree co c1 c2 m1 m2 i -> agree co c1 c2 m1' m2' i.
Proof.
  intros Hlay Hrange.
  induction rs as [|r rs IH]; intros Hincl m1 m2 st1 st2 m1' m2' st1' st2' E1 E2 H1 H2 i Hag;
    simpl in H1, H2.
  - inversion H1; inversion H2; subst. exact Hag.
  - apply bind_OK in H1. destruct H1 as (n1 & s1 & Hone1 & H1).
    apply bind_OK in H2. destruct H2 as (n2 & s2 & Hone2 & H2).
    apply resolve_one_OK in Hone1. destruct Hone1 as (-> & k1 & h1 & t1 & K1 & A1 & B1 & ->).
    apply resolve_one_OK in Hone2. destruct Hone2 as (-> & k2 & h2 & t2 & K2 & A2 & B2 & ->).
    rewrite E1 in *. rewrite E2 in *.
    assert (k2 = k1) by congruence. assert (h2 = h1) by congruence.
    assert (t2 = t1) by congruence. subst k2 h2 t2.
    apply (IH (fun x Hx => Hincl x (or_intror Hx)) _ _ _ _ _ _ _ _ E1 E2 H1 H2).
    apply (patch_agree sec off range r k1 h1 t1); try assumption.
    apply Hincl. now left.
Qed.

Lemma memcpy_agree off bytes (m1 m2 : Mem) i :
  agree co c1 c2 m1 m2 i \/ off <= i < off + Z.of_nat (length bytes) ->
  agree co c1 c2 (memcpy m1 (c1 + off) bytes) (memcpy m2 (c2 + off) bytes) i.
Proof.
  intros H. unfold agree in *. rewrite !memcpy_at.
  destruct (Z.leb_spec (c1 + off) (c1 + i));
    destruct (Z.leb_spec (c2 + off) (c2 + i)); try lia; cbn [andb];
    [|destruct H as [H|H]; [exact H | lia]].
  destruct (Z.ltb_spec (c1 + i) (c1 + off + Z.of_nat (length bytes)));
    destruct (Z.ltb_spec (c2 + i) (c2 + off + Z.of_nat (length bytes)));
    try lia; [|destruct H as [H|H]; [exact H | lia]].
  left. f_equal. lia.
Qed.

Lemma copy_all_agree lay :
  incl lay (layout co) ->
  forall m1 m2 st1 st2 m1' m2' st1' st2',
    this st1 = co -> this st2 = co ->
    copy_all c1 lay m1 st1 = OK (m1', st1') ->
    copy_all c2 lay m2 st2 = OK (m2', st2') ->
    forall i,
      agree co c1 c2 m1 m2 i \/ contents_at (_obj co) lay i ->
      agree co c1 c2 m1' m2' i.
Proof.
  induction lay as [|[sec off] lay IH];
    intros Hincl m1 m2 st1 st2 m1' m2' st1' st2' E1 E2 H1 H2 i Hi;
    simpl in H1, H2.
  - inversion H1; inversion H2; subst.
    destruct Hi as [Hi|(sec & off & bytes & [] & _)]. exact Hi.
  - unfold bind at 1, gets at 1 in H1. unfold bind at 1, gets at 1 in H2.
    simpl in H1, H2. rewrite E1 in H1. rewrite E2 in H2.
    destruct (SectionRef_.getContents (_obj co) (sect sec)) as [bytes|] eqn:Hc;
      [|discriminate].
    apply bind_OK in H1. destruct H1 as (n1 & s1 & R1 & H1).
    apply bind_OK in H2. destruct H2 as (n2 & s2 & R2 & H2).
    apply resolveRelocs_OK in R1. destruct R1 as (-> & range1 & G1 & R1).
    apply resolveRelocs_OK in R2. destruct R2 as (-> & range2 & G2 & R2).
    rewrite E1 in G1. rewrite E2 in G2.
    assert (range2 = range1) by congruence. subst range2.
    assert (Hhead : In (sec, off) (layout co)) by (apply Hincl; now left).
    assert (F1 : this (after st1 [Call_resolveRelocs (sect sec)]) = co) by exact E1.
    assert (F2 : this (after st2 [Call_resolveRelocs (sect sec)]) = co) by exact E2.
    apply (IH (fun x Hx => Hincl x (or_intror Hx)) n1 n2 _ _ _ _ _ _ F1 F2 H1 H2).
    destruct (classic_range off (Z.of_nat (length bytes)) i) as [Hin|Hout].
    + left.
      apply (resolve_all_agree sec off range1 (rr_entries range1) Hhead G1
               (fun x Hx => Hx) _ _ _ _ _ _ _ _ F1 F2 R1 R2).
      apply memcpy_agree. now right.
    + destruct Hi as [Hi|(sec' & off' & bytes' & [Heq|Hin'] & Hc' & Hr')].
      * left.
        apply (resolve_all_agree sec off range1 (rr_entries range1) Hhead G1
                 (fun x Hx => Hx) _ _ _ _ _ _ _ _ F1 F2 R1 R2).
        apply memcpy_agree. now left.
      * inversion Heq; subst sec' off'. rewrite Hc in Hc'.
        inversion Hc'; subst bytes'. contradiction.
      * right. now exists sec', off', bytes'.
Qed.
End TwoRuns.

Lemma getCode_unfold code m st :
  getCode code m st = copy_all code (layout (this st)) m (after st [Call_getCode code]).
Proof. reflexivity. Qed.

(** [Samples.objP] has no relocation record at all and its code object is
    9 bytes long; materialised at 4096 over zeros and at 8192 over ones, the
    two copies differ at position 3, which lies between the two sections. *)
Lemma getCode_twice_differs_between_sections :
  let st := Samples.built Samples.objP in
  let m1 := fst (run_getCode 4096 Samples.zeros st) in
  let m2 := fst (run_getCode 8192 Samples.ones st) in
  getCode 4096 Samples.zeros st = OK (run_getCode 4096 Samples.zeros st)
  /\ getCode 8192 Samples.ones st = OK (run_getCode 8192 Samples.ones st)
  /\ size (this st) = 9
  /\ 0 <= 3 < size (this st)
  /\ m1 (4096 + 3) <> m2 (8192 + 3)
  /\ ~ absolute_patch_at (this st) 3.
Proof.
  split; [reflexivity|]. split; [reflexivity|]. split; [reflexivity|].
  split; [vm_compute; split; [discriminate | reflexivity]|].
  split; [vm_compute; discriminate|].
  intros (sec & off & range & r & k & Hlay & Hrange & Hin & _).
  vm_compute in Hlay.
  destruct Hlay as [Hlay|[Hlay|[]]]; inversion Hlay; subst sec off;
    vm_compute in Hrange; inversion Hrange; subst range; exact Hin.
Qed.

(** Two calls of [getCode] on the same object, against any two
    destinations, yield the same byte at every position of the code object
    that lies inside the contents of an included section, except where the
    two base addresses differ and the position is patched with an absolute
    address. *)
Theorem getCode_twice_agrees_inside_sections
    (st : State) (c1 c2 : Z) (m1 m2 m1' m2' : Mem) (st1 st2 : State) :
  getCode c1 m1 st = OK (m1', st1) ->
  getCode c2 m2 st1 = OK (m2', st2) ->
  forall i,
    contents_at (_obj (this st)) (layout (this st)) i ->
    m1' (c1 + i) = m2' (c2 + i)
    \/ (c1 <> c2 /\ absolute_patch_at (this st) i).
Proof.
  intros H1 H2 i Hi.
  pose proof (getCode_this _ _ _ _ _ H1) as Hthis.
  rewrite getCode_unfold in H1, H2. rewrite Hthis in H2.
  apply (copy_all_agree (this st) c1 c2 (layout (this st)) (fun x Hx => Hx)
           m1 m2 (after st [Call_getCode c1]) (after st1 [Call_getCode c2])
           m1' m2' st1 st2 eq_refl Hthis H1 H2 i).
  now right.
Qed.

Lemma getCode_twice_agrees_inside_sections_witness :
  let st := Samples.built Samples.objA in
  let r1 := run_getCode 4096 Samples.zeros st in
  let r2 := run_getCode 8192 Samples.ones (snd r1) in
  fst r1 (4096 + 0) = fst r2 (8192 + 0)
  \/ (4096 <> 8192 /\ absolute_patch_at (this st) 0).
Proof.
  intros st r1 r2.
  apply (getCode_twice_agrees_inside_sections st 4096 8192
           Samples.zeros Samples.ones (fst r1) (fst r2) (snd r1) (snd r2)).
  - reflexivity.
  - reflexivity.
  - exists (Section1 0%nat), 0, Samples.text16.
    split; [left; reflexivity|]. split; [reflexivity|]. vm_compute. split; congruence.
Defined.

(** ** [getCode] and the memory outside the destination *)






(** Every object [_computeSize] has sized is [sized]. *)
Lemma constructed_sized vt tgt obj st :
  _computeSize {| this := ctor vt tgt obj; calls := [] |} = OK (tt, st) ->
  sized (this st).
Proof.
  intros Hrun.
  destruct (constructed_object vt tgt obj)
    as (st0 & new & Hrun0 & _ & _ & _ & H2 & H3 & H4 & H5).
  rewrite Hrun in Hrun0. inversion Hrun0; subst st0.
  unfold sized. rewrite H5, H4, H2, H3. f_equal.
  rewrite map_map. apply map_ext. intros s.
  unfold Section_.getSize, rd_bind, this_sect, rd_ret. simpl.
  now rewrite sect_paired.
Qed.





(** Scenario A of the specification: the code object is 24 bytes long; at
    base 4096 the bytes 4 to 11 hold 4096 + 16 = 0x1010 in little-endian
    order, the other bytes of the text section and the data section are
    copied. *)
Example scenario_A :
  let st := Samples.built Samples.objA in
  size (this st) = 24
  /\ map (fun i => Z_of_byte (fst (run_getCode 4096 Samples.zeros st)
                                 (4096 + Z.of_nat i)))
         (seq 0 24)
     = [144; 144; 72; 184; 16; 16] ++ repeat 0 6 ++ [255; 224; 144; 144]
       ++ [222; 173; 190; 239; 202; 254; 186; 190].
Proof. split; vm_compute; reflexivity. Qed.

(** Scenario B of the specification: only a debug-info data section, which
    the target rejects: the size is 0 and no section is selected. *)
Example scenario_B :
  let st := Samples.built Samples.objB in
  size (this st) = 0 /\ _sects (this st) = [].
Proof. split; reflexivity. Qed.

(** * Further properties of the code in the header *)

(** ** The methods of [Section] and the members they read *)

(** X1.  A method of [Section] depends on the members it reads and on
    nothing else: called on two [Section]s that agree on the members the
    call on the first one reads, it reads the same members and returns the
    same result.  The six getters read [sect] only, so pairing a section
    with a separate relocation section changes none of its name, address,
    index, size, contents and object; [relocations()] reads the flag and
    then either [reloc] or [sect], never both. *)
Theorem section_methods_depend_on_members_read
    (obj : ObjectFile) (m : SectionMethod) (sec1 sec2 : SectionInfo) :
  (forall f, In f (reads_of obj m sec1) -> member f sec1 = member f sec2) ->
  invoke obj m sec1 = invoke obj m sec2
  /\ reads_of obj m sec2 = reads_of obj m sec1
  /\ (m <> M_relocations -> reads_of obj m sec1 = [F_sect])
  /\ (m = M_relocations ->
      reads_of obj m sec1
      = if separateRelocSec sec1 then [F_separateRelocSec; F_reloc]
        else [F_separateRelocSec; F_sect]).
Proof.
  intros Hagree.
  assert (Hflag : m = M_relocations -> separateRelocSec sec1 = separateRelocSec sec2).
  { intros ->. specialize (Hagree F_separateRelocSec).
    assert (Hin : In F_separateRelocSec (reads_of obj M_relocations sec1)).
    { simpl. destruct (separateRelocSec sec1) eqn:Hb.
      - rewrite relocations_flag_set by assumption. now left.
      - rewrite relocations_flag_unset by assumption. now left. }
    apply Hagree in Hin. now inversion Hin. }
  destruct m;
    try (assert (Hs : sect sec1 = sect sec2)
           by (specialize (Hagree F_sect (or_introl eq_refl)); now inversion Hagree);
         unfold invoke, reads_of, Section_.getName, Section_.getAddress,
           Section_.getIndex, Section_.getSize, Section_.getContents,
           Section_.getObject, rd_bind, this_sect, rd_ret; simpl;
         try rewrite Hs; repeat split; congruence).
  specialize (Hflag eq_refl).
  destruct (separateRelocSec sec1) eqn:Hb1; symmetry in Hflag.
  - assert (Hr : reloc sec1 = reloc sec2).
    { specialize (Hagree F_reloc). simpl in Hagree.
      rewrite relocations_flag_set in Hagree by assumption.
      specialize (Hagree (or_intror (or_introl eq_refl))). now inversion Hagree. }
    simpl. rewrite !relocations_flag_set by assumption. simpl. rewrite Hr.
    repeat split; congruence.
  - assert (Hs : sect sec1 = sect sec2).
    { specialize (Hagree F_sect). simpl in Hagree.
      rewrite relocations_flag_unset in Hagree by assumption.
      specialize (Hagree (or_intror (or_introl eq_refl))). now inversion Hagree. }
    simpl. rewrite !relocations_flag_unset by assumption. simpl. rewrite Hs.
    repeat split; congruence.
Qed.

Lemma section_methods_depend_on_members_read_witness :
  invoke Samples.objR M_getSize (Section1 0%nat)
  = invoke Samples.objR M_getSize (Section2 0%nat 1%nat).
Proof.
  apply (section_methods_depend_on_members_read Samples.objR M_getSize
           (Section1 0%nat) (Section2 0%nat 1%nat)).
  intros f [<-|[]]. reflexivity.
Defined.

(** ** The guard of [_relocationSect] *)

(** X2.  [_relocationSect] hands a section to [_includeSect] only behind
    its two guards: whenever the data-inclusion hook is called during a run,
    the Object Reader has named a relocated section, that section is not
    [section_end()], it is a data section and not a text section, and the
    hook is called on it, once.  When the reader names no section or names
    [section_end()], nothing is called at all. *)
Theorem relocationSect_consults_only_behind_guards (st : State) (s : SectionRef) :
  let obj := _obj (this st) in
  exists (it : section_iterator) (new : list Event),
    _relocationSect s st = OK (it, after st new)
    /\ (length new <= 1)%nat
    /\ (forall e, In e new ->
          exists x, e = Call_includeDataSect x
            /\ SectionRef_.getRelocatedSection obj s = Success (iter_of x)
            /\ iter_of x <> section_end obj
            /\ SectionRef_.isText obj x = false
            /\ SectionRef_.isData obj x = true)
    /\ ((exists msg, SectionRef_.getRelocatedSection obj s = Failure msg)
        \/ SectionRef_.getRelocatedSection obj s = Success (section_end obj) ->
        new = [] /\ it = section_end obj).
Proof.
  intros obj.
  exists (relocated_included (_vptr (this st)) obj s), (relocationSect_calls obj s).
  split; [apply relocationSect_run|].
  unfold relocationSect_calls, relocated_included, consulted.
  destruct (SectionRef_.getRelocatedSection obj s) as [r|msg] eqn:Hrel.
  - destruct (Nat.eqb r (section_end obj)) eqn:Hend; cbn [negb andb].
    + apply Nat.eqb_eq in Hend. split; [simpl; lia|]. split; [intros e []|].
      intros _. now split.
    + apply Nat.eqb_neq in Hend.
      destruct (SectionRef_.isText obj (deref r)) eqn:Ht;
        destruct (SectionRef_.isData obj (deref r)) eqn:Hd; cbn [negb andb length].
      all: split; [lia|].
      all: split; [|intros [[msg Hm]|He]; [discriminate | congruence]].
      all: intros e Hin; simpl in Hin; try contradiction.
      destruct Hin as [<-|[]]. exists (deref r). repeat split; assumption.
  - split; [simpl; lia|]. split; [intros e []|]. intros _. now split.
Qed.

(** ** Where targets cannot differ *)

(** X4.  The hooks of the target bear on data sections only.  On two
    objects over the same object file, with any two sets of hooks,
    [_includeSect] gives the same answer for every section that is text or
    is not data (true for text, false otherwise) and calls no hook; and
    [_relocationSect] gives the same answer for every section whose
    relocated section is text or is not data. *)
Theorem targets_differ_on_data_sections_only (st1 st2 : State) (s : SectionRef) :
  _obj (this st1) = _obj (this st2) ->
  let obj := _obj (this st1) in
  (SectionRef_.isText obj s = true \/ SectionRef_.isData obj s = false ->
   _includeSect s st1 = OK (SectionRef_.isText obj s, st1)
   /\ _includeSect s st2 = OK (SectionRef_.isText obj s, st2))
  /\ ((forall r, SectionRef_.getRelocatedSection obj s = Success r ->
         SectionRef_.isText obj (deref r) = true
         \/ SectionRef_.isData obj (deref r) = false) ->
      exists it,
        _relocationSect s st1 = OK (it, st1)
        /\ _relocationSect s st2 = OK (it, st2)).
Proof.
  intros Hobj obj.
  assert (Hinc : forall vt x,
            SectionRef_.isText obj x = true \/ SectionRef_.isData obj x = false ->
            included_by_spec vt obj x = SectionRef_.isText obj x
            /\ consulted obj x = []).
  { intros vt x Hx. unfold included_by_spec, consulted.
    destruct (SectionRef_.isText obj x), (SectionRef_.isData obj x);
      destruct Hx; try discriminate; now split. }
  split.
  - intros Hs.
    rewrite !includeSect_run. rewrite <- Hobj. fold obj.
    destruct (Hinc (_vptr (this st1)) s Hs) as [-> ->].
    destruct (Hinc (_vptr (this st2)) s Hs) as [-> _].
    now rewrite !after_nil.
  - intros Hrel.
    rewrite !relocationSect_run. rewrite <- Hobj. fold obj.
    unfold relocated_included, relocationSect_calls.
    destruct (SectionRef_.getRelocatedSection obj s) as [r|msg] eqn:Hr.
    + specialize (Hrel r eq_refl).
      destruct (Hinc (_vptr (this st1)) (deref r) Hrel) as [-> ->].
      destruct (Hinc (_vptr (this st2)) (deref r) Hrel) as [-> _].
      destruct (negb (Nat.eqb r (section_end obj))); rewrite !after_nil;
        eexists; split; reflexivity.
    + eexists. rewrite !after_nil. split; reflexivity.
Qed.

Lemma targets_differ_on_data_sections_only_witness :
  _includeSect 0%nat (Samples.fresh Samples.objA)
  = OK (true, Samples.fresh Samples.objA)
  /\ _includeSect 0%nat (Samples.built Samples.objA)
     = OK (true, Samples.built Samples.objA).
Proof.
  apply (proj1 (targets_differ_on_data_sections_only
                  (Samples.fresh Samples.objA) (Samples.built Samples.objA) 0%nat
                  eq_refl)).
  left. reflexivity.
Defined.
